(** * mooltiploo-optional-ts: the [Optional] class of [src/index.ts]

    A shallow embedding of the class and of the part of the JavaScript
    run time it relies on: a heap of objects with identity, thrown values,
    calls of caller-supplied functions and generator objects.

    - An Optional instance is a heap object holding its [value] slot; a
      reference to it is its address.  [new Optional(v)] allocates.
    - A method is a computation in the monad [M]: it reads and extends the
      heap, may throw a JavaScript value, and records every call of a
      caller-supplied function it makes.
    - A caller-supplied function is a [func]: an identity and a body.  The
      body is a term of [cb], whose only effects are returning, throwing,
      allocating containers and observing containers through the API.  An
      argument that was not supplied ([undefined]) is [None]. *)

From Stdlib Require Import ZArith String Lia.
From stdpp Require Import base list.

Local Open Scope string_scope.
Local Open Scope list_scope.

(** ** Values and objects *)

Abbreviation ref := nat.

(** JavaScript values as far as the class can meet them.  [VObj] is a
    reference to a heap object, [VErr name message] an error object. *)
Inductive value : Type :=
  | VUndefined
  | VNull
  | VBool (b : bool)
  | VNum (n : Z)
  | VStr (s : string)
  | VObj (r : ref)
  | VErr (name message : string).

(** State of a generator object created by [*[Symbol.iterator]]. *)
Inductive gen_state : Type :=
  | SuspendedStart
  | SuspendedYield
  | Completed.

Inductive object : Type :=
  | OOptional (value : value)
  | OGenerator (this : ref) (state : gen_state).

Abbreviation heap := (list object).

(** Outcome of a computation: a result or a thrown value. *)
Inductive outcome (A : Type) : Type :=
  | Ok (a : A)
  | Throw (e : value).
Arguments Ok {A} a.
Arguments Throw {A} e.

(** ** Caller-supplied functions *)

(** The body of a function passed to a method, as the tree of what it
    does: return a value, throw one, construct a container and go on with
    its reference, or ask a container for what it holds ([isPresent()] and
    [get()]) and go on with the answer.  The slot is [readonly]: no body
    writes it. *)
Inductive cb : Type :=
  | CRet (v : value)
  | CThrow (e : value)
  | CNew (v : value) (k : ref -> cb)
  | CQuery (r : ref) (k : option value -> cb).

(** A function value: its identity, by which its calls are recorded, and
    its body, from the arguments of the call. *)
Record func : Type := { fid : nat; body : list value -> cb }.

(** ** The monad of the methods *)

(** The heap, and the calls of supplied functions the methods have made so
    far: the function's [fid] and the arguments, oldest first. *)
Record world : Type := { objects : heap; calls : list (nat * list value) }.

Definition M (A : Type) : Type := world -> outcome A * world.

Definition ret {A} (a : A) : M A := fun w => (Ok a, w).

Definition throw {A} (e : value) : M A := fun w => (Throw e, w).

Definition bind {A B} (m : M A) (k : A -> M B) : M B :=
  fun w => match m w with
           | (Ok a, w') => k a w'
           | (Throw e, w') => (Throw e, w')
           end.

Notation "'let*' x ':=' m 'in' k" := (bind m (fun x => k))
  (at level 10, x name, m at level 100, k at level 200).
Notation "'run' m 'in' k" := (bind m (fun _ => k))
  (at level 10, m at level 100, k at level 200).

(** [o.value]: the slot of an Optional; a property an object does not have
    reads as [undefined]. *)
Definition slot (h : heap) (r : ref) : value :=
  match h !! r with
  | Some (OOptional v) => v
  | _ => VUndefined
  end.

Definition read_value (this : ref) : M value :=
  fun w => (Ok (slot (objects w) this), w).

Definition alloc (o : object) : M ref :=
  fun w => (Ok (length (objects w)),
            {| objects := objects w ++ [o]; calls := calls w |}).

Definition isNullOrUndefined (v : value) : bool :=
  match v with
  | VUndefined | VNull => true
  | _ => false
  end.

(** What a caller-supplied function sees of a container through the API:
    nothing when it is empty, the held value otherwise. *)
Definition observe (h : heap) (r : ref) : option value :=
  if isNullOrUndefined (slot h r) then None else Some (slot h r).

Fixpoint run_cb (c : cb) (h : heap) : outcome value * heap :=
  match c with
  | CRet v => (Ok v, h)
  | CThrow e => (Throw e, h)
  | CNew v k => run_cb (k (length h)) (h ++ [OOptional v])
  | CQuery r k => run_cb (k (observe h r)) h
  end.

(** Calling [fn(args)].  Calling what is not a function is the host's
    [TypeError]. *)
Definition not_a_function : value := VErr "TypeError" "fn is not a function".

Definition invoke (fn : option func) (args : list value) : M value :=
  match fn with
  | None => throw not_a_function
  | Some f =>
      fun w =>
        let '(r, h') := run_cb (body f args) (objects w) in
        (r, {| objects := h'; calls := calls w ++ [(fid f, args)] |})
  end.

(** The host names the callee in its error: [fn] above, and the name of
    the parameter where it is another. *)
Definition not_callable (callee : string) : value :=
  VErr "TypeError" (callee ++ " is not a function").

Definition invoke_as (callee : string) (fn : option func)
    (args : list value) : M value :=
  match fn with
  | None => throw (not_callable callee)
  | Some _ => invoke fn args
  end.

(** Truthiness of a value in a condition. *)
Definition truthy (v : value) : bool :=
  match v with
  | VUndefined | VNull => false
  | VBool b => b
  | VNum n => negb (n =? 0)%Z
  | VStr s => negb (s =? "")
  | VObj _ | VErr _ _ => true
  end.

(** ** index.ts *)

Definition assertOn (condition : bool) (errorMessage : string) : M unit :=
  if condition then throw (VErr "Error" errorMessage) else ret tt.

Module Optional.

Definition new (value : value) : M ref := alloc (OOptional value).

Definition ofNullable (value : value) : M ref := new value.

(** [of] is reserved in Rocq: [Optional.of] is [of_]. *)
Definition of_ (value : value) : M ref :=
  run assertOn (isNullOrUndefined value)
               "NullPointerException : value is not defined" in
  new value.

Definition empty : M ref := new VUndefined.

Definition isEmpty (this : ref) : M bool :=
  let* v := read_value this in ret (isNullOrUndefined v).

Definition isPresent (this : ref) : M bool :=
  let* e := isEmpty this in ret (negb e).

Definition get (this : ref) : M value :=
  let* e := isEmpty this in
  run assertOn e "Can not invoke get on Optional with null/undefined value" in
  read_value this.

Definition ifPresent (this : ref) (fn : option func) : M unit :=
  let* p := isPresent this in
  if p then (let* v := read_value this in run invoke fn [v] in ret tt)
  else ret tt.

Definition ifPresentOrElse (this : ref) (nonEmptyFn emptyFn : option func)
  : M unit :=
  let* p := isPresent this in
  if p then
    (let* v := read_value this in
     run invoke_as "nonEmptyFn" nonEmptyFn [v] in ret tt)
  else (run invoke_as "emptyFn" emptyFn [] in ret tt).

Definition filter (this : ref) (fn : option func) : M ref :=
  let* e := isEmpty this in
  if e then ret this
  else
    let* v := read_value this in
    let* b := invoke fn [v] in
    if truthy b then (let* v' := read_value this in new v')
    else new VUndefined.

Definition map (this : ref) (fn : option func) : M ref :=
  let* e := isEmpty this in
  if e then new VUndefined
  else
    let* v := read_value this in
    let* u := invoke fn [v] in
    new u.

Definition flatMap (this : ref) (fn : option func) : M value :=
  let* e := isEmpty this in
  if e then (let* r := new VUndefined in ret (VObj r))
  else
    let* v := read_value this in
    let* result := invoke fn [v] in
    run assertOn (isNullOrUndefined result)
                 "Mapping function cannot return null/undefined value" in
    ret result.

Definition orElse (this : ref) (other : value) : M value :=
  let* p := isPresent this in
  if p then read_value this else ret other.

Definition orElseGet (this : ref) (fn : option func) : M value :=
  let* p := isPresent this in
  if p then read_value this else invoke fn [].

Definition or (this : ref) (fn : option func) : M value :=
  let* p := isPresent this in
  if p then ret (VObj this)
  else
    let* result := invoke fn [] in
    run assertOn (isNullOrUndefined result)
                 "provided function returns null or undefined result" in
    ret result.

Definition orElseThrow (this : ref) (fn : option func) : M value :=
  let* p := isPresent this in
  if p then read_value this
  else (let* e := invoke fn [] in throw e).

(** [*[Symbol.iterator]()]: calling a generator function runs none of
    its body; it creates a generator object suspended at the start. *)
Definition iterator (this : ref) : M ref :=
  alloc (OGenerator this SuspendedStart).

End Optional.

(** ** Generator objects and [for ... of] *)

Record iter_result : Type := { value_of : value; done : bool }.

Definition set_state (g this : ref) (st : gen_state) : M unit :=
  fun w => (Ok tt, {| objects := <[g := OGenerator this st]> (objects w);
                      calls := calls w |}).

Definition not_a_generator : value :=
  VErr "TypeError" "next is not a function".

(** [g.next()] resumes the body of [*[Symbol.iterator]] where it was
    suspended: from the start up to [yield this.value] or to [return],
    and from the [yield] to [return]. *)
Definition next (g : ref) : M iter_result :=
  fun w =>
    match objects w !! g with
    | Some (OGenerator this SuspendedStart) =>
        (let* p := Optional.isPresent this in
         if p then
           let* v := read_value this in
           run set_state g this SuspendedYield in
           ret {| value_of := v; done := false |}
         else
           run set_state g this Completed in
           ret {| value_of := VUndefined; done := true |}) w
    | Some (OGenerator this SuspendedYield) =>
        (run set_state g this Completed in
         ret {| value_of := VUndefined; done := true |}) w
    | Some (OGenerator this Completed) =>
        (Ok {| value_of := VUndefined; done := true |}, w)
    | _ => (Throw not_a_generator, w)
    end.

(** The loop of [for (const x of o) acc = body(acc, x)]: [next] is called
    until it reports [done].  [None] when the fuel runs out first. *)
Fixpoint for_of_loop {A} (fuel : nat) (g : ref) (body : A -> value -> A)
    (acc : A) : M (option A) :=
  match fuel with
  | O => ret None
  | S fuel' =>
      let* r := next g in
      if done r then ret (Some acc)
      else for_of_loop fuel' g body (body acc (value_of r))
  end.

Definition for_of {A} (fuel : nat) (this : ref) (body : A -> value -> A)
    (acc : A) : M (option A) :=
  let* g := Optional.iterator this in
  for_of_loop fuel g body acc.

(** [n] loops over the same container, one after the other. *)
Fixpoint for_of_times {A} (n fuel : nat) (this : ref)
    (body : A -> value -> A) (acc : A) : M (option A) :=
  match n with
  | O => ret (Some acc)
  | S n' =>
      let* r := for_of fuel this body acc in
      match r with
      | Some acc' => for_of_times n' fuel this body acc'
      | None => ret None
      end
  end.

(** ** The API as a type of operations *)

Inductive op : Type :=
  | New (v : value)
  | OfNullable (v : value)
  | Of (v : value)
  | Empty
  | Get (this : ref)
  | IsEmpty (this : ref)
  | IsPresent (this : ref)
  | IfPresent (this : ref) (fn : option func)
  | IfPresentOrElse (this : ref) (nonEmptyFn emptyFn : option func)
  | Filter (this : ref) (fn : option func)
  | Map (this : ref) (fn : option func)
  | FlatMap (this : ref) (fn : option func)
  | OrElse (this : ref) (other : value)
  | OrElseGet (this : ref) (fn : option func)
  | Or (this : ref) (fn : option func)
  | OrElseThrow (this : ref) (fn : option func)
  | Iterator (this : ref)
  | Next (g : ref).

Inductive answer : Type :=
  | AVal (v : value)
  | ABool (b : bool)
  | AVoid
  | AIter (r : iter_result).

Definition fmap_M {A B} (f : A -> B) (m : M A) : M B :=
  let* a := m in ret (f a).

Definition a_ref (r : ref) : answer := AVal (VObj r).

Definition exec (o : op) : M answer :=
  match o with
  | New v => fmap_M a_ref (Optional.new v)
  | OfNullable v => fmap_M a_ref (Optional.ofNullable v)
  | Of v => fmap_M a_ref (Optional.of_ v)
  | Empty => fmap_M a_ref Optional.empty
  | Get this => fmap_M AVal (Optional.get this)
  | IsEmpty this => fmap_M ABool (Optional.isEmpty this)
  | IsPresent this => fmap_M ABool (Optional.isPresent this)
  | IfPresent this fn => fmap_M (fun _ => AVoid) (Optional.ifPresent this fn)
  | IfPresentOrElse this f g =>
      fmap_M (fun _ => AVoid) (Optional.ifPresentOrElse this f g)
  | Filter this fn => fmap_M a_ref (Optional.filter this fn)
  | Map this fn => fmap_M a_ref (Optional.map this fn)
  | FlatMap this fn => fmap_M AVal (Optional.flatMap this fn)
  | OrElse this other => fmap_M AVal (Optional.orElse this other)
  | OrElseGet this fn => fmap_M AVal (Optional.orElseGet this fn)
  | Or this fn => fmap_M AVal (Optional.or this fn)
  | OrElseThrow this fn => fmap_M AVal (Optional.orElseThrow this fn)
  | Iterator this => fmap_M a_ref (Optional.iterator this)
  | Next g => fmap_M AIter (next g)
  end.

(** The functions an operation was given. *)
Definition funcs_of (o : op) : list func :=
  match o with
  | IfPresent _ fn | Filter _ fn | Map _ fn | FlatMap _ fn
  | OrElseGet _ fn | Or _ fn | OrElseThrow _ fn => option_list fn
  | IfPresentOrElse _ f g => option_list f ++ option_list g
  | _ => []
  end.

(** What a sequence of operations lets a caller see: the outcome of each. *)
Fixpoint outcomes (os : list op) (w : world) : list (outcome answer) :=
  match os with
  | [] => []
  | o :: os' => let '(r, w') := exec o w in r :: outcomes os' w'
  end.

(** ** The errors of the class

    Every check of the class throws [new Error(message)] through
    [assertOn]; the messages tell the checks apart.  The error kinds of
    the specification are read off them: [NoSuchElement] is the error of
    [get], [InvalidArgument] the error of one of the argument checks (of
    [of], [flatMap] and [or]).  A [TypeError] is the host's, for a call of
    what is not a function. *)

Definition of_error : value :=
  VErr "Error" "NullPointerException : value is not defined".
Definition get_error : value :=
  VErr "Error" "Can not invoke get on Optional with null/undefined value".
Definition flatMap_error : value :=
  VErr "Error" "Mapping function cannot return null/undefined value".
Definition or_error : value :=
  VErr "Error" "provided function returns null or undefined result".

Inductive error_kind : Type :=
  | InvalidArgument
  | NoSuchElement
  | CallError
  | Foreign.

Definition message_in (m : string) (errors : list value) : bool :=
  existsb (fun e => match e with
                    | VErr _ m' => m =? m'
                    | _ => false
                    end) errors.

Definition kind_of (e : value) : error_kind :=
  match e with
  | VErr name m =>
      if name =? "Error" then
        if message_in m [get_error] then NoSuchElement
        else if message_in m [of_error; flatMap_error; or_error]
             then InvalidArgument
             else Foreign
      else if name =? "TypeError" then CallError
      else Foreign
  | _ => Foreign
  end.

(** A container is present when its slot holds neither [undefined] nor
    [null]; the slot is the held value. *)
Definition present (w : world) (this : ref) : bool :=
  negb (isNullOrUndefined (slot (objects w) this)).

Definition held (w : world) (this : ref) : value := slot (objects w) this.

(** The world after a call of [f] that ran up to the heap [h]. *)
Definition called (w : world) (f : func) (args : list value) (h : heap)
  : world :=
  {| objects := h; calls := calls w ++ [(fid f, args)] |}.

Definition allocated (w : world) (o : object) : world :=
  {| objects := objects w ++ [o]; calls := calls w |}.

(** [f] can produce [x]: return it or throw it. *)
Definition yields (f : func) (x : value) : Prop :=
  exists args h h',
    run_cb (body f args) h = (Ok x, h') \/
    run_cb (body f args) h = (Throw x, h').

(** ** The fixtures of the test suite of the repository *)

Module Tests.

Definition hello : value := VStr "hello".
Definition w0 : world := {| objects := []; calls := [] |}.
(** [Optional.empty()] and [Optional.of('hello')], at address 0. *)
Definition w_empty : world := snd (Optional.empty w0).
Definition w_hello : world := snd (Optional.of_ hello w0).

Definition constant (id : nat) (v : value) : func :=
  {| fid := id; body := fun _ => CRet v |}.
Definition identityOptionalFn (id : nat) (v : value) : func :=
  {| fid := id; body := fun _ => CNew v (fun r => CRet (VObj r)) |}.
Definition thrower (id : nat) (e : value) : func :=
  {| fid := id; body := fun _ => CThrow e |}.
Definition count (total : nat) (_ : value) : nat := S total.


End Tests.

(** ** Notions the statements are written with *)

(** What a supplied function allocates are containers. *)
Definition is_optional (o : object) : Prop :=
  match o with OOptional _ => True | OGenerator _ _ => False end.

(** The errors a computation can end with all satisfy [P]. *)
Definition throws_only {A} (P : value -> Prop) (m : M A) : Prop :=
  forall w e w', m w = (Throw e, w') -> P e.

Definition finished : iter_result :=
  {| value_of := VUndefined; done := true |}.

(** What the first [next] of a traversal of [this] reports. *)
Definition first_result (w : world) (this : ref) : iter_result :=
  if present w this then {| value_of := held w this; done := false |}
  else finished.

(** The world after the generator [g] moved to the state [st]. *)
Definition resumed (w : world) (g this : ref) (st : gen_state) : world :=
  {| objects := <[g := OGenerator this st]> (objects w);
     calls := calls w |}.

(** Two traversals of one container: the first is run to its end before
    the second is asked for anything. *)
Definition two_traversals (this : ref)
  : M (iter_result * iter_result * iter_result) :=
  let* g1 := Optional.iterator this in
  let* g2 := Optional.iterator this in
  let* a := next g1 in
  let* b := next g1 in
  let* c := next g2 in
  ret (a, b, c).

(** A computation keeps every container of the heap as it is. *)
Definition preserves {A} (m : M A) : Prop :=
  forall w r w',
    m w = (r, w') ->
    forall a v, objects w !! a = Some (OOptional v) ->
                objects w' !! a = Some (OOptional v).




(** Two objects are alike when they are equal, or are both containers with
    an absent slot: one may hold [null] and the other [undefined]. *)
Definition same_object (o1 o2 : object) : Prop :=
  match o1, o2 with
  | OOptional v1, OOptional v2 =>
      v1 = v2 \/ (isNullOrUndefined v1 = true /\ isNullOrUndefined v2 = true)
  | OGenerator t1 s1, OGenerator t2 s2 => t1 = t2 /\ s1 = s2
  | _, _ => False
  end.

Definition alike (w1 w2 : world) : Prop :=
  Forall2 same_object (objects w1) (objects w2) /\ calls w1 = calls w2.

(** [m] cannot tell [w1] from [w2]: same outcome, and alike worlds after. *)
Definition agree {A} (m : M A) (w1 w2 : world) : Prop :=
  fst (m w1) = fst (m w2) /\ alike (snd (m w1)) (snd (m w2)).

(** ** Functions and programs the further properties are written with *)

(** A function that computes its result from its first argument and does
    nothing else; an argument that was not passed reads as [undefined]. *)
Definition pure_fn (id : nat) (F : value -> value) : func :=
  {| fid := id; body := fun args => CRet (F (hd VUndefined args)) |}.

(** [v => new Optional(v)]. *)
Definition wrap_fn (id : nat) : func :=
  {| fid := id;
     body := fun args => CNew (hd VUndefined args) (fun r => CRet (VObj r)) |}.

(** [o.map(f).map(g)]. *)
Definition map_map (this : ref) (f g : option func) : M ref :=
  let* a := Optional.map this f in Optional.map a g.

(** [Optional.ofNullable(v).orElse(other)]. *)
Definition ofNullable_orElse (v other : value) : M value :=
  let* o := Optional.ofNullable v in Optional.orElse o other.

(** [n] calls of [g.next()], one after the other. *)
Fixpoint next_times (n : nat) (g : ref) : M (list iter_result) :=
  match n with
  | O => ret []
  | S n' =>
      let* r := next g in
      let* rs := next_times n' g in
      ret (r :: rs)
  end.

(** The errors an operation can raise by itself: the error of its own
    check, and the host's error for each function it was not given. *)
Definition missing (fn : option func) : list value :=
  match fn with
  | None => [not_a_function]
  | Some _ => []
  end.

Definition missing_as (callee : string) (fn : option func) : list value :=
  match fn with
  | None => [not_callable callee]
  | Some _ => []
  end.

Definition own_errors (o : op) : list value :=
  match o with
  | Of _ => [of_error]
  | Get _ => [get_error]
  | FlatMap _ fn => flatMap_error :: missing fn
  | Or _ fn => or_error :: missing fn
  | IfPresent _ fn | Filter _ fn | Map _ fn | OrElseGet _ fn
  | OrElseThrow _ fn => missing fn
  | IfPresentOrElse _ f g =>
      missing_as "nonEmptyFn" f ++ missing_as "emptyFn" g
  | Next _ => [not_a_generator]
  | _ => []
  end.

(** The object an operation may write to: [next] its generator, every
    other operation none. *)
Definition written (o : op) : option ref :=
  match o with
  | Next g => Some g
  | _ => None
  end.

(** [o.filter(f).filter(g)]. *)
Definition filter_filter (this : ref) (f g : option func) : M ref :=
  let* a := Optional.filter this f in Optional.filter a g.

(** [o.map(f).orElse(other)]. *)
Definition map_orElse (this : ref) (f : option func) (other : value)
  : M value :=
  let* a := Optional.map this f in Optional.orElse a other.

(** What a container with [u] in its slot lets a caller see. *)
Definition visible (u : value) : option value :=
  if isNullOrUndefined u then None else Some u.

(** The operations that construct a container from a value. *)
Definition is_constructor (o : op) : bool :=
  match o with
  | New _ | OfNullable _ | Of _ | Empty => true
  | _ => false
  end.

(** A computation only appends to the heap. *)
Definition extends {A} (m : M A) : Prop :=
  forall w r w', m w = (r, w') -> objects w `prefix_of` objects w'.

Ltac unfold_methods :=
  unfold Optional.filter, Optional.map, Optional.flatMap, Optional.or,
    Optional.orElse, Optional.orElseGet, Optional.orElseThrow,
    Optional.ifPresent, Optional.ifPresentOrElse, Optional.get,
    Optional.isPresent, Optional.isEmpty, Optional.of_,
    Optional.ofNullable, Optional.empty, Optional.new, Optional.iterator,
    assertOn, alloc, read_value, bind, ret, throw.

(** * The test suite of the repository, on the model *)

Module Suite.
Import Tests.

Example empty_get_throws :
  Optional.get 0 w_empty = (Throw get_error, w_empty).
Proof. reflexivity. Qed.

Example empty_isEmpty : Optional.isEmpty 0 w_empty = (Ok true, w_empty).
Proof. reflexivity. Qed.

Example empty_ifPresent_not_invoked :
  calls (snd (Optional.ifPresent 0 (Some (constant 1 VUndefined)) w_empty))
  = [].
Proof. reflexivity. Qed.

Example empty_stream_total : fst (for_of 5 0 count 0 w_empty) = Ok (Some 0).
Proof. reflexivity. Qed.

Example empty_ifPresentOrElse_invokes_emptyFn :
  calls (snd (Optional.ifPresentOrElse 0 (Some (constant 1 VUndefined))
                (Some (constant 2 VUndefined)) w_empty))
  = [(2, [])].
Proof. reflexivity. Qed.

Example of_ifPresentOrElse_invokes_nonEmptyFn :
  calls (snd (Optional.ifPresentOrElse 0 (Some (constant 1 VUndefined))
                (Some (constant 2 VUndefined)) w_hello))
  = [(1, [hello])].
Proof. reflexivity. Qed.

Example empty_or_undefined_throws :
  fst (Optional.or 0 None w_empty) = Throw not_a_function.
Proof. reflexivity. Qed.

Example empty_or_returns_supplied :
  fst ((let* r := Optional.or 0 (Some (identityOptionalFn 1 hello)) in
       match r with VObj o => Optional.get o | _ => ret VUndefined end) w_empty)
  = Ok hello.
Proof. reflexivity. Qed.

Example empty_or_null_result_throws :
  fst (Optional.or 0 (Some (constant 1 VUndefined)) w_empty)
  = Throw or_error.
Proof. reflexivity. Qed.

Example empty_orElseThrow :
  fst (Optional.orElseThrow 0 (Some (constant 1 (VErr "Error" "Throw up")))
         w_empty)
  = Throw (VErr "Error" "Throw up").
Proof. reflexivity. Qed.

Example of_get : Optional.get 0 w_hello = (Ok hello, w_hello).
Proof. reflexivity. Qed.

Example of_undefined_throws : fst (Optional.of_ VUndefined w0) = Throw of_error.
Proof. reflexivity. Qed.

Example of_ifPresent_undefined_throws :
  fst (Optional.ifPresent 0 None w_hello) = Throw not_a_function.
Proof. reflexivity. Qed.

Example of_ifPresent_invokes :
  calls (snd (Optional.ifPresent 0 (Some (constant 1 VUndefined)) w_hello))
  = [(1, [hello])].
Proof. reflexivity. Qed.

Example of_filter_true :
  fst ((let* r := Optional.filter 0 (Some (constant 1 (VBool true))) in
       Optional.get r) w_hello)
  = Ok hello.
Proof. reflexivity. Qed.

Example of_filter_false :
  fst ((let* r := Optional.filter 0 (Some (constant 1 (VBool false))) in
       Optional.get r) w_hello)
  = Throw get_error.
Proof. reflexivity. Qed.

Example of_map_undefined :
  fst ((let* r := Optional.map 0 (Some (constant 1 VUndefined)) in
       Optional.get r) w_hello)
  = Throw get_error.
Proof. reflexivity. Qed.

Example of_flatMap_undefined_throws :
  fst (Optional.flatMap 0 (Some (constant 1 VUndefined)) w_hello)
  = Throw flatMap_error.
Proof. reflexivity. Qed.

Example of_flatMap_returns :
  fst ((let* r := Optional.flatMap 0
                   (Some (identityOptionalFn 1 (VStr "flatMap"))) in
       match r with VObj o => Optional.get o | _ => ret VUndefined end) w_hello)
  = Ok (VStr "flatMap").
Proof. reflexivity. Qed.

Example of_or_returns_inner :
  Optional.or 0 (Some (identityOptionalFn 1 (VStr "goodbye"))) w_hello
  = (Ok (VObj 0), w_hello).
Proof. reflexivity. Qed.

Example of_stream_total : fst (for_of 5 0 count 0 w_hello) = Ok (Some 1).
Proof. reflexivity. Qed.

Example of_iterate_twice :
  fst (for_of_times 2 5 0 count 0 w_hello) = Ok (Some 2).
Proof. reflexivity. Qed.

Example ofNullable_undefined :
  fst ((let* r := Optional.ofNullable VUndefined in Optional.isPresent r) w0)
  = Ok false.
Proof. reflexivity. Qed.

End Suite.

(** ** Basic facts about the heap and the functions supplied by callers *)

Lemma slot_lookup (h : heap) (r : ref) (v : value) :
  h !! r = Some (OOptional v) -> slot h r = v.
Proof. unfold slot. intros ->. reflexivity. Qed.

Lemma slot_present_lookup (h : heap) (r : ref) :
  isNullOrUndefined (slot h r) = false -> h !! r = Some (OOptional (slot h r)).
Proof.
  unfold slot. destruct (h !! r) as [[v|t s]|]; simpl; congruence.
Qed.

Lemma slot_alloc (h : heap) (v : value) :
  slot (h ++ [OOptional v]) (length h) = v.
Proof.
  apply slot_lookup. rewrite lookup_app_r by lia.
  replace (length h - length h) with 0 by lia. reflexivity.
Qed.

Lemma lookup_prefix (h h' : heap) (r : ref) (o : object) :
  h `prefix_of` h' -> h !! r = Some o -> h' !! r = Some o.
Proof. intros [k ->] H. apply lookup_app_l_Some. exact H. Qed.

Lemma slot_prefix (h h' : heap) (r : ref) :
  h `prefix_of` h' -> isNullOrUndefined (slot h r) = false ->
  slot h' r = slot h r.
Proof.
  intros Hp Hs. apply slot_lookup. eapply lookup_prefix; [exact Hp|].
  apply slot_present_lookup. exact Hs.
Qed.

(** A supplied function only allocates: the heap it leaves extends the heap
    it was called in. *)
Lemma run_cb_prefix (c : cb) :
  forall (h h' : heap) (r : outcome value),
    run_cb c h = (r, h') -> h `prefix_of` h'.
Proof.
  induction c as [v|e|v k IH|q k IH]; simpl; intros h h' r Hrun.
  - inversion Hrun; subst. reflexivity.
  - inversion Hrun; subst. reflexivity.
  - apply IH in Hrun. etransitivity; [|exact Hrun]. now apply prefix_app_r.
  - apply IH in Hrun. exact Hrun.
Qed.

Lemma run_cb_slot (c : cb) (h h' : heap) (r : outcome value) (a : ref) :
  run_cb c h = (r, h') -> isNullOrUndefined (slot h a) = false ->
  slot h' a = slot h a.
Proof. intros Hrun. apply slot_prefix. eapply run_cb_prefix, Hrun. Qed.

Lemma run_cb_allocates (c : cb) :
  forall (h h' : heap) (r : outcome value),
    run_cb c h = (r, h') -> exists k, h' = h ++ k /\ Forall is_optional k.
Proof.
  induction c as [v|e|v k IH|q k IH]; simpl; intros h h' r Hrun.
  - inversion Hrun; subst. exists []. now rewrite app_nil_r.
  - inversion Hrun; subst. exists []. now rewrite app_nil_r.
  - apply IH in Hrun as (l & -> & Hl). exists (OOptional v :: l).
    split; [now rewrite <- app_assoc|]. constructor; [exact I|exact Hl].
  - apply IH in Hrun. exact Hrun.
Qed.

Lemma present_slot (w : world) (this : ref) :
  present w this = true -> isNullOrUndefined (slot (objects w) this) = false.
Proof. unfold present. now destruct (isNullOrUndefined _). Qed.

Lemma empty_slot (w : world) (this : ref) :
  present w this = false -> isNullOrUndefined (slot (objects w) this) = true.
Proof. unfold present. now destruct (isNullOrUndefined _). Qed.

Lemma present_allocated (w : world) (v : value) :
  present (allocated w (OOptional v)) (length (objects w))
  = negb (isNullOrUndefined v).
Proof. unfold present, allocated; simpl. now rewrite slot_alloc. Qed.

Lemma held_allocated (w : world) (v : value) :
  held (allocated w (OOptional v)) (length (objects w)) = v.
Proof. unfold held, allocated; simpl. apply slot_alloc. Qed.

(** ** filter *)

(** C4. [filter] on an empty container returns the receiver itself and
    calls nothing, whatever was passed as predicate.  On a present
    container whose predicate returns [b], the predicate is called exactly
    once, with the held value, and the result is a new container: it holds
    the receiver's value when [b] is true, and is empty otherwise. *)
Theorem filter_spec (this : ref) (fn : option func) (w : world) :
  (present w this = false -> Optional.filter this fn w = (Ok this, w)) /\
  (forall (f : func) (b : value) (h : heap),
      present w this = true -> fn = Some f ->
      run_cb (body f [held w this]) (objects w) = (Ok b, h) ->
      let w1 := called w f [held w this] h in
      let w' :=
        allocated w1 (OOptional (if truthy b then held w this
                                 else VUndefined)) in
      let r := length h in
      Optional.filter this fn w = (Ok r, w') /\
      calls w' = calls w ++ [(fid f, [held w this])] /\
      length (objects w) <= r /\
      present w' r = truthy b /\
      (truthy b = true -> held w' r = held w this)).
Proof.
  split.
  - intros He. apply empty_slot in He. unfold_methods. now rewrite He.
  - intros f b h Hp -> Hrun w1 w' r. pose proof (present_slot _ _ Hp) as Hs.
    assert (Hfilter : Optional.filter this (Some f) w = (Ok r, w')).
    { unfold_methods. rewrite Hs. unfold invoke. fold (held w this).
      rewrite Hrun. subst w' w1 r. unfold allocated, called; simpl.
      destruct (truthy b); simpl; [|reflexivity].
      unfold held. now rewrite (run_cb_slot _ _ _ _ _ Hrun Hs). }
    split; [exact Hfilter|]. split; [reflexivity|]. split.
    { subst r. apply prefix_length. eapply run_cb_prefix, Hrun. }
    subst w' r. change h with (objects w1).
    rewrite present_allocated, held_allocated.
    destruct (truthy b); simpl.
    + unfold held. rewrite Hs. split; [reflexivity|]. reflexivity.
    + split; [reflexivity|]. discriminate.
Qed.

Lemma filter_spec_witness :
  Optional.filter 0 (Some (Tests.constant 1 (VBool true))) Tests.w_hello
  = (Ok 1, {| objects := [OOptional Tests.hello; OOptional Tests.hello];
              calls := [(1, [Tests.hello])] |})
  /\ Optional.filter 0 None Tests.w_empty = (Ok 0, Tests.w_empty).
Proof.
  split.
  - exact (proj1 (proj2 (filter_spec 0 _ Tests.w_hello)
                    (Tests.constant 1 (VBool true)) (VBool true)
                    (objects Tests.w_hello) eq_refl eq_refl eq_refl)).
  - exact (proj1 (filter_spec 0 None Tests.w_empty) eq_refl).
Defined.

(** ** map *)

(** C5. [map] on an empty container returns a new empty container and
    calls nothing.  On a present container whose mapper returns [u], the
    mapper is called exactly once, with the held value, and the result is
    a new container with [u] in its slot: empty when [u] is [undefined] or
    [null], and nothing is thrown for that; present and holding [u]
    otherwise. *)
Theorem map_spec (this : ref) (fn : option func) (w : world) :
  (present w this = false ->
   let w' := allocated w (OOptional VUndefined) in
   let r := length (objects w) in
   Optional.map this fn w = (Ok r, w') /\
   calls w' = calls w /\ present w' r = false) /\
  (forall (f : func) (u : value) (h : heap),
      present w this = true -> fn = Some f ->
      run_cb (body f [held w this]) (objects w) = (Ok u, h) ->
      let w' := allocated (called w f [held w this] h) (OOptional u) in
      let r := length h in
      Optional.map this fn w = (Ok r, w') /\
      calls w' = calls w ++ [(fid f, [held w this])] /\
      length (objects w) <= r /\
      present w' r = negb (isNullOrUndefined u) /\
      held w' r = u).
Proof.
  split.
  - intros He w' r. apply empty_slot in He. split.
    + unfold_methods. now rewrite He.
    + split; [reflexivity|]. subst w' r. now rewrite present_allocated.
  - intros f u h Hp -> Hrun w' r. pose proof (present_slot _ _ Hp) as Hs.
    split.
    { unfold_methods. rewrite Hs. unfold invoke. fold (held w this).
      now rewrite Hrun. }
    split; [reflexivity|]. split.
    { subst r. apply prefix_length. eapply run_cb_prefix, Hrun. }
    subst w' r. change h with (objects (called w f [held w this] h)).
    now rewrite present_allocated, held_allocated.
Qed.

Lemma map_spec_witness :
  Optional.map 0 (Some (Tests.constant 1 VNull)) Tests.w_hello
  = (Ok 1, {| objects := [OOptional Tests.hello; OOptional VNull];
              calls := [(1, [Tests.hello])] |})
  /\ Optional.map 0 None Tests.w_empty
     = (Ok 1, {| objects := [OOptional VUndefined; OOptional VUndefined];
                 calls := [] |}).
Proof.
  split.
  - exact (proj1 (proj2 (map_spec 0 _ Tests.w_hello)
                    (Tests.constant 1 VNull) VNull
                    (objects Tests.w_hello) eq_refl eq_refl eq_refl)).
  - exact (proj1 (proj1 (map_spec 0 None Tests.w_empty) eq_refl)).
Defined.

(** ** flatMap *)

(** C6. [flatMap] on an empty container returns a new empty container and
    calls nothing.  On a present container whose mapper returns [u], the
    mapper is called exactly once, with the held value; the call fails,
    with the InvalidArgument error of [flatMap], exactly when [u] is
    [undefined] or [null]; otherwise [u] itself is the result, an empty
    container included, and [flatMap] allocates nothing. *)
Theorem flatMap_spec (this : ref) (fn : option func) (w : world) :
  (present w this = false ->
   let w' := allocated w (OOptional VUndefined) in
   let r := length (objects w) in
   Optional.flatMap this fn w = (Ok (VObj r), w') /\
   calls w' = calls w /\ present w' r = false) /\
  (forall (f : func) (u : value) (h : heap),
      present w this = true -> fn = Some f ->
      run_cb (body f [held w this]) (objects w) = (Ok u, h) ->
      let w' := called w f [held w this] h in
      Optional.flatMap this fn w
      = (if isNullOrUndefined u then Throw flatMap_error else Ok u, w') /\
      calls w' = calls w ++ [(fid f, [held w this])] /\
      ((exists e w'', Optional.flatMap this fn w = (Throw e, w'') /\
                      kind_of e = InvalidArgument)
       <-> isNullOrUndefined u = true)) /\
  kind_of flatMap_error = InvalidArgument.
Proof.
  split; [|split; [|reflexivity]].
  - intros He w' r. apply empty_slot in He. split.
    + unfold_methods. now rewrite He.
    + split; [reflexivity|]. subst w' r. now rewrite present_allocated.
  - intros f u h Hp -> Hrun w'. pose proof (present_slot _ _ Hp) as Hs.
    assert (Hfm : Optional.flatMap this (Some f) w
                  = (if isNullOrUndefined u then Throw flatMap_error
                     else Ok u, w')).
    { unfold_methods. rewrite Hs. unfold invoke. fold (held w this).
      rewrite Hrun. now destruct (isNullOrUndefined u). }
    split; [exact Hfm|]. split; [reflexivity|]. rewrite Hfm.
    destruct (isNullOrUndefined u); split.
    + reflexivity.
    + intros _. exists flatMap_error, w'. now split.
    + intros (e & w'' & Heq & _). discriminate Heq.
    + discriminate.
Qed.

Lemma flatMap_spec_witness :
  Optional.flatMap 0 (Some (Tests.constant 1 VUndefined)) Tests.w_hello
  = (Throw flatMap_error,
     {| objects := [OOptional Tests.hello];
        calls := [(1, [Tests.hello])] |})
  /\ Optional.flatMap 0 (Some (Tests.constant 1 (VObj 0))) Tests.w_empty
     = (Ok (VObj 1),
        {| objects := [OOptional VUndefined; OOptional VUndefined];
           calls := [] |}).
Proof.
  split.
  - exact (proj1 (proj1 (proj2 (flatMap_spec 0 _ Tests.w_hello))
                    (Tests.constant 1 VUndefined) VUndefined
                    (objects Tests.w_hello) eq_refl eq_refl eq_refl)).
  - exact (proj1 (proj1 (flatMap_spec 0 _ Tests.w_empty) eq_refl)).
Defined.

(** ** or *)

(** C3, as the claim states it, fails: on an empty container, [or] with no
    function does fail, but with the host's error for the call, not with
    an InvalidArgument error: the check of the result is never reached. *)
Lemma or_without_function_not_invalid_argument :
  ~ exists (e : value) (w' : world),
      Optional.or 0 None Tests.w_empty = (Throw e, w') /\
      kind_of e = InvalidArgument.
Proof.
  intros (e & w' & Hrun & Hkind). vm_compute in Hrun.
  inversion Hrun; subst. discriminate Hkind.
Qed.

(** C3, amended.  [or] on a present container returns the receiver itself
    and calls nothing, whatever was passed as supplier.  On an empty
    container whose supplier returns [u], the supplier is called exactly
    once, without arguments; the call fails with the InvalidArgument error
    of [or] exactly when [u] is [undefined] or [null], and otherwise [u]
    itself is the result.  On an empty container and with no supplier,
    the call fails with the host's error for calling what is not a
    function, and nothing else happens. *)
Theorem or_spec (this : ref) (fn : option func) (w : world) :
  (present w this = true -> Optional.or this fn w = (Ok (VObj this), w)) /\
  (forall (f : func) (u : value) (h : heap),
      present w this = false -> fn = Some f ->
      run_cb (body f []) (objects w) = (Ok u, h) ->
      let w' := called w f [] h in
      Optional.or this fn w
      = (if isNullOrUndefined u then Throw or_error else Ok u, w') /\
      calls w' = calls w ++ [(fid f, [])]) /\
  (present w this = false -> fn = None ->
   Optional.or this fn w = (Throw not_a_function, w)) /\
  kind_of or_error = InvalidArgument /\
  kind_of not_a_function = CallError.
Proof.
  split; [|split; [|split; [|split; reflexivity]]].
  - intros Hp. apply present_slot in Hp. unfold_methods. now rewrite Hp.
  - intros f u h He -> Hrun w'. apply empty_slot in He. split; [|reflexivity].
    unfold_methods. rewrite He. simpl. unfold invoke. rewrite Hrun.
    now destruct (isNullOrUndefined u).
  - intros He ->. apply empty_slot in He. unfold_methods. now rewrite He.
Qed.

Lemma or_spec_witness :
  Optional.or 0 (Some (Tests.constant 1 VUndefined)) Tests.w_empty
  = (Throw or_error,
     called Tests.w_empty (Tests.constant 1 VUndefined) []
       (objects Tests.w_empty))
  /\ Optional.or 0 None Tests.w_empty = (Throw not_a_function, Tests.w_empty)
  /\ Optional.or 0 None Tests.w_hello = (Ok (VObj 0), Tests.w_hello).
Proof.
  split; [|split].
  - exact (proj1 (proj1 (proj2 (or_spec 0 _ Tests.w_empty))
                    (Tests.constant 1 VUndefined) VUndefined
                    (objects Tests.w_empty) eq_refl eq_refl eq_refl)).
  - exact (proj1 (proj2 (proj2 (or_spec 0 None Tests.w_empty)))
             eq_refl eq_refl).
  - exact (proj1 (or_spec 0 None Tests.w_hello) eq_refl).
Defined.

(** ** ifPresent *)

(** C1, as the claim states it, fails: [ifPresent] checks nothing upfront.
    On an empty container and with no consumer it returns normally. *)
Lemma ifPresent_without_consumer_on_empty_returns :
  Optional.ifPresent 0 None Tests.w_empty = (Ok tt, Tests.w_empty) /\
  ~ exists (e : value) (w' : world),
      Optional.ifPresent 0 None Tests.w_empty = (Throw e, w').
Proof.
  split; [reflexivity|]. intros (e & w' & Hrun). discriminate Hrun.
Qed.

(** C1, amended.  On an empty container [ifPresent] calls nothing and
    raises nothing, whether or not a consumer was passed.  On a present
    container with no consumer it fails, when it comes to the call, with
    the host's error for calling what is not a function.  On a present
    container with a consumer, the consumer is called exactly once, with
    the held value, and [ifPresent] ends as the consumer does. *)
Theorem ifPresent_spec (this : ref) (fn : option func) (w : world) :
  (present w this = false -> Optional.ifPresent this fn w = (Ok tt, w)) /\
  (present w this = true -> fn = None ->
   Optional.ifPresent this fn w = (Throw not_a_function, w)) /\
  (forall (f : func) (r : outcome value) (h : heap),
      present w this = true -> fn = Some f ->
      run_cb (body f [held w this]) (objects w) = (r, h) ->
      let w' := called w f [held w this] h in
      Optional.ifPresent this fn w
      = (match r with Ok _ => Ok tt | Throw e => Throw e end, w') /\
      calls w' = calls w ++ [(fid f, [held w this])]) /\
  kind_of not_a_function = CallError.
Proof.
  split; [|split; [|split; [|reflexivity]]].
  - intros He. apply empty_slot in He. unfold_methods. rewrite He.
    reflexivity.
  - intros Hp ->. apply present_slot in Hp. unfold_methods. rewrite Hp.
    reflexivity.
  - intros f r h Hp -> Hrun w'. apply present_slot in Hp.
    split; [|reflexivity]. unfold_methods. rewrite Hp. simpl.
    unfold invoke. fold (held w this). rewrite Hrun. now destruct r.
Qed.

Lemma ifPresent_spec_witness :
  Optional.ifPresent 0 None Tests.w_empty = (Ok tt, Tests.w_empty)
  /\ Optional.ifPresent 0 None Tests.w_hello
     = (Throw not_a_function, Tests.w_hello)
  /\ Optional.ifPresent 0 (Some (Tests.constant 1 VUndefined)) Tests.w_hello
     = (Ok tt, {| objects := objects Tests.w_hello;
                  calls := [(1, [Tests.hello])] |}).
Proof.
  split; [|split].
  - exact (proj1 (ifPresent_spec 0 None Tests.w_empty) eq_refl).
  - exact (proj1 (proj2 (ifPresent_spec 0 None Tests.w_hello))
             eq_refl eq_refl).
  - exact (proj1 (proj1 (proj2 (proj2 (ifPresent_spec 0 _ Tests.w_hello)))
                    (Tests.constant 1 VUndefined) (Ok VUndefined)
                    (objects Tests.w_hello) eq_refl eq_refl eq_refl)).
Defined.

(** ** of *)

(** C7. [of] fails, with its InvalidArgument error and without allocating,
    exactly when the value is [undefined] or [null].  For every other
    value [v] it returns a new container, present, and [get] on it
    returns [v]. *)
Theorem of_spec (v : value) (w : world) :
  Optional.of_ v w
  = (if isNullOrUndefined v then (Throw of_error, w)
     else (Ok (length (objects w)), allocated w (OOptional v))) /\
  kind_of of_error = InvalidArgument /\
  ((exists e w', Optional.of_ v w = (Throw e, w') /\
                 kind_of e = InvalidArgument)
   <-> isNullOrUndefined v = true) /\
  (isNullOrUndefined v = false ->
   let w' := allocated w (OOptional v) in
   (let* o := Optional.of_ v in Optional.get o) w = (Ok v, w') /\
   (let* o := Optional.of_ v in Optional.isPresent o) w = (Ok true, w') /\
   present w' (length (objects w)) = true /\
   held w' (length (objects w)) = v).
Proof.
  assert (Hof : Optional.of_ v w
                = (if isNullOrUndefined v then (Throw of_error, w)
                   else (Ok (length (objects w)),
                         allocated w (OOptional v)))).
  { unfold_methods. now destruct (isNullOrUndefined v). }
  split; [exact Hof|]. split; [reflexivity|]. split.
  - rewrite Hof. destruct (isNullOrUndefined v); split.
    + reflexivity.
    + intros _. exists of_error, w. now split.
    + intros (e & w' & Heq & _). discriminate Heq.
    + discriminate.
  - intros Hv w'. unfold bind. rewrite Hof, Hv. subst w'.
    unfold Optional.get, Optional.isPresent, Optional.isEmpty.
    unfold assertOn, read_value, bind, ret.
    rewrite present_allocated, held_allocated. unfold allocated; simpl.
    rewrite slot_alloc, Hv; simpl. rewrite slot_alloc. repeat split.
Qed.

Lemma of_spec_witness :
  (let* o := Optional.of_ Tests.hello in Optional.get o) Tests.w0
  = (Ok Tests.hello, Tests.w_hello).
Proof.
  exact (proj1 (proj2 (proj2 (proj2 (of_spec Tests.hello Tests.w0)))
                  eq_refl)).
Defined.

(** ** get, and where errors come from *)

Lemma get_eq (this : ref) (w : world) :
  Optional.get this w
  = (if present w this then Ok (held w this) else Throw get_error, w).
Proof.
  unfold_methods. unfold present, held.
  now destruct (isNullOrUndefined (slot (objects w) this)).
Qed.

(** What a call of a supplied function ends with was produced by the
    function, unless there was no function to call. *)
Lemma invoke_yields (fn : option func) (args : list value) (w w' : world)
    (r : outcome value) :
  invoke fn args w = (r, w') ->
  (fn = None /\ r = Throw not_a_function) \/
  (exists f x, fn = Some f /\ yields f x /\ (r = Ok x \/ r = Throw x)).
Proof.
  destruct fn as [f|]; simpl.
  - intros Hinv. right.
    destruct (run_cb (body f args) (objects w)) as [[x|x] h] eqn:Hrun;
      inversion Hinv; subst; exists f, x;
      (split; [reflexivity|]; split; [exists args, (objects w), h|]); auto.
  - intros Hinv. left. inversion Hinv. now split.
Qed.

Lemma throws_only_ret {A} (P : value -> Prop) (a : A) : throws_only P (ret a).
Proof. intros w e w' H. discriminate H. Qed.

Lemma throws_only_throw {A} (P : value -> Prop) (e : value) :
  P e -> throws_only P (@throw A e).
Proof. intros He w e' w' H. inversion H; subst. exact He. Qed.

Lemma throws_only_bind {A B} (P : value -> Prop) (m : M A) (k : A -> M B) :
  throws_only P m -> (forall a, throws_only P (k a)) ->
  throws_only P (bind m k).
Proof.
  intros Hm Hk w e w'. unfold bind.
  destruct (m w) as [[a|e0] w0] eqn:Hmw.
  - apply Hk.
  - intros H. inversion H; subst. eapply Hm, Hmw.
Qed.

Lemma throws_only_if {A} (P : value -> Prop) (b : bool) (m1 m2 : M A) :
  throws_only P m1 -> throws_only P m2 ->
  throws_only P (if b then m1 else m2).
Proof. now destruct b. Qed.

Lemma throws_only_read (P : value -> Prop) (this : ref) :
  throws_only P (read_value this).
Proof. intros w e w' H. discriminate H. Qed.

Lemma throws_only_alloc (P : value -> Prop) (o : object) :
  throws_only P (alloc o).
Proof. intros w e w' H. discriminate H. Qed.

Lemma throws_only_assertOn (P : value -> Prop) (c : bool) (m : string) :
  P (VErr "Error" m) -> throws_only P (assertOn c m).
Proof.
  intros Hm. unfold assertOn.
  apply throws_only_if; [now apply throws_only_throw|apply throws_only_ret].
Qed.

Lemma throws_only_invoke (P : value -> Prop) (fn : option func)
    (args : list value) :
  P not_a_function ->
  (forall f x, fn = Some f -> yields f x -> P x) ->
  throws_only P (invoke fn args).
Proof.
  intros Hn Hf w e w' Hinv.
  apply invoke_yields in Hinv as [[_ He]|(f & x & -> & Hy & [He|He])].
  - inversion He; subst. exact Hn.
  - discriminate He.
  - inversion He; subst. eapply Hf; [reflexivity|exact Hy].
Qed.

Lemma throws_only_next (P : value -> Prop) (g : ref) :
  P not_a_generator -> throws_only P (next g).
Proof.
  intros Hg w e w'. unfold next.
  destruct (objects w !! g) as [[v|this [| |]]|]; unfold_methods;
    unfold set_state; simpl;
    repeat match goal with
      | |- context [if ?b then _ else _] => destruct b
      end;
    intros H; inversion H; subst; exact Hg.
Qed.

Lemma throws_only_invoke_as (P : value -> Prop) (callee : string)
    (fn : option func) (args : list value) :
  P (not_callable callee) ->
  (forall f x, fn = Some f -> yields f x -> P x) ->
  throws_only P (invoke_as callee fn args).
Proof.
  intros Hn Hf. destruct fn as [f|]; unfold invoke_as.
  - intros w e w' Hinv.
    apply invoke_yields in Hinv as [[He _]|(g & x & Hg & Hy & [He|He])];
      [discriminate He|discriminate He|].
    inversion He; subst. eapply Hf; [exact Hg|exact Hy].
  - now apply throws_only_throw.
Qed.

Create HintDb throws.

#[local] Hint Resolve throws_only_ret throws_only_throw throws_only_read
  throws_only_alloc throws_only_assertOn throws_only_next : throws.

Ltac throws_step :=
  first [ apply throws_only_bind; [|intros ?]
        | apply throws_only_if
        | apply throws_only_invoke
        | apply throws_only_invoke_as
        | solve [auto with throws] ].

(** [orElseThrow] throws what its supplier returned. *)
Lemma throws_only_orElseThrow (P : value -> Prop) (this : ref)
    (fn : option func) :
  P not_a_function ->
  (forall f x, fn = Some f -> yields f x -> P x) ->
  throws_only P (Optional.orElseThrow this fn).
Proof.
  intros Hn Hf. unfold Optional.orElseThrow.
  apply throws_only_bind; [unfold Optional.isPresent, Optional.isEmpty;
                           repeat throws_step|].
  intros p. apply throws_only_if; [apply throws_only_read|].
  intros w e w'. unfold bind, throw.
  destruct (invoke fn [] w) as [[x|x] w0] eqn:Hinv; intros H;
    inversion H; subst;
    apply invoke_yields in Hinv as [[_ He]|(f & y & -> & Hy & [He|He])];
    inversion He; subst; try exact Hn; eapply Hf; eauto.
Qed.

(** An operation other than [get] ends only with errors that satisfy [P],
    when [P] holds of the errors of the other checks, of the host's errors
    and of what the supplied functions produce. *)
Lemma exec_throws_only (P : value -> Prop) (o : op) :
  (forall this, o <> Get this) ->
  P of_error -> P flatMap_error -> P or_error ->
  P not_a_function -> (forall callee, P (not_callable callee)) ->
  P not_a_generator ->
  (forall f x, In f (funcs_of o) -> yields f x -> P x) ->
  throws_only P (exec o).
Proof.
  intros Hget Hof Hfm Hor Hnf Hnc Hng Hfn.
  assert (Hin : forall (f : func) l1 l2, In f (l1 ++ f :: l2)).
  { intros f l1 l2. apply in_or_app. right. now left. }
  destruct o; simpl in *; unfold fmap_M;
    try (exfalso; eapply Hget; reflexivity);
    (apply throws_only_bind; [|intros ?; apply throws_only_ret]);
    try (apply throws_only_orElseThrow; [exact Hnf|]);
    unfold Optional.filter, Optional.map, Optional.flatMap, Optional.or,
      Optional.orElse, Optional.orElseGet,
      Optional.ifPresent, Optional.ifPresentOrElse,
      Optional.isPresent, Optional.isEmpty, Optional.of_,
      Optional.ofNullable, Optional.empty, Optional.new, Optional.iterator;
    repeat throws_step;
    intros f0 x0 -> Hy;
    (apply (Hfn f0 x0); [|exact Hy]); simpl;
    first [ now left | apply (Hin f0 (option_list _) []) ].
Qed.

(** C2. [get] returns the held value of a present container, raising
    nothing, and fails with its NoSuchElement error on an empty one, so it
    raises NoSuchElement exactly when the container is empty.  No other
    operation raises NoSuchElement: when one ends with such an error, a
    function supplied to it produced the error, and an operation that
    takes no function never ends with it. *)
Theorem get_spec (this : ref) (w : world) :
  Optional.get this w
  = (if present w this then Ok (held w this) else Throw get_error, w) /\
  kind_of get_error = NoSuchElement /\
  ((exists e w', Optional.get this w = (Throw e, w') /\
                 kind_of e = NoSuchElement)
   <-> present w this = false) /\
  (forall (o : op) (e : value) (w' : world),
      (forall t, o <> Get t) ->
      exec o w = (Throw e, w') -> kind_of e = NoSuchElement ->
      exists f, In f (funcs_of o) /\ yields f e).
Proof.
  split; [apply get_eq|]. split; [reflexivity|]. split.
  - rewrite get_eq. destruct (present w this); split.
    + intros (e & w' & Heq & _). discriminate Heq.
    + discriminate.
    + reflexivity.
    + intros _. exists get_error, w. now split.
  - intros o e w' Hget Hexec.
    refine (exec_throws_only
              (fun x => kind_of x = NoSuchElement ->
                        exists f, In f (funcs_of o) /\ yields f x)
              o Hget _ _ _ _ _ _ _ w e w' Hexec); try discriminate.
    intros f x Hin Hy _. now exists f.
Qed.

Lemma get_spec_witness :
  exists f, In f [Tests.thrower 1 get_error] /\ yields f get_error.
Proof.
  exact (proj2 (proj2 (proj2 (get_spec 0 Tests.w_hello)))
           (Map 0 (Some (Tests.thrower 1 get_error))) get_error
           (called Tests.w_hello (Tests.thrower 1 get_error) [Tests.hello]
              (objects Tests.w_hello))
           ltac:(discriminate) eq_refl eq_refl).
Defined.

(** ** Iteration *)

Lemma slot_alloc_generator (h : heap) (t : ref) (s : gen_state) (r : ref) :
  slot (h ++ [OGenerator t s]) r = slot h r.
Proof.
  unfold slot. destruct (decide (r < length h)) as [Hlt|Hge].
  - now rewrite lookup_app_l.
  - rewrite lookup_app_r, (lookup_ge_None_2 h r) by lia.
    now destruct (r - length h) as [|[|n]].
Qed.

Lemma slot_resumed (h : heap) (g t t' : ref) (s s' : gen_state) (r : ref) :
  h !! g = Some (OGenerator t s) ->
  slot (<[g := OGenerator t' s']> h) r = slot h r.
Proof.
  intros Hg. unfold slot. destruct (decide (g = r)) as [<-|Hne].
  - rewrite list_lookup_insert_eq by (eapply lookup_lt_Some, Hg).
    now rewrite Hg.
  - now rewrite list_lookup_insert_ne.
Qed.

Lemma present_allocated_generator (w : world) (t : ref) (s : gen_state)
    (r : ref) :
  present (allocated w (OGenerator t s)) r = present w r /\
  held (allocated w (OGenerator t s)) r = held w r.
Proof.
  unfold present, held, allocated; simpl.
  now rewrite slot_alloc_generator.
Qed.

Lemma next_start (g this : ref) (w : world) :
  objects w !! g = Some (OGenerator this SuspendedStart) ->
  next g w
  = (Ok (first_result w this),
     resumed w g this
       (if present w this then SuspendedYield else Completed)).
Proof.
  intros Hg. unfold next. rewrite Hg. unfold_methods.
  unfold first_result, present, held, set_state, resumed.
  now destruct (isNullOrUndefined (slot (objects w) this)).
Qed.

Lemma next_yield (g this : ref) (w : world) :
  objects w !! g = Some (OGenerator this SuspendedYield) ->
  next g w = (Ok finished, resumed w g this Completed).
Proof. intros Hg. unfold next. now rewrite Hg. Qed.

Lemma next_completed (g this : ref) (w : world) :
  objects w !! g = Some (OGenerator this Completed) ->
  next g w = (Ok finished, w).
Proof. intros Hg. unfold next. now rewrite Hg. Qed.

Lemma lookup_resumed (w : world) (g this : ref) (s s' : gen_state) :
  objects w !! g = Some (OGenerator this s) ->
  objects (resumed w g this s') !! g = Some (OGenerator this s').
Proof.
  intros Hg. simpl. apply list_lookup_insert_eq. eapply lookup_lt_Some, Hg.
Qed.

Lemma resumed_resumed (w : world) (g this : ref) (s s' : gen_state) :
  resumed (resumed w g this s) g this s' = resumed w g this s'.
Proof. unfold resumed; simpl. now rewrite list_insert_insert_eq. Qed.

(** The loop over a generator that has not started ends, after at most two
    calls of [next], having run the body on the held value if there is
    one. *)
Lemma for_of_loop_start {A} (fuel : nat) (g this : ref)
    (body : A -> value -> A) (acc : A) (w : world) :
  objects w !! g = Some (OGenerator this SuspendedStart) ->
  2 <= fuel ->
  for_of_loop fuel g body acc w
  = (Ok (Some (if present w this then body acc (held w this) else acc)),
     resumed w g this Completed).
Proof.
  intros Hg Hfuel. destruct fuel as [|[|fuel]]; try lia.
  cbn [for_of_loop]. unfold bind at 1. rewrite (next_start _ _ _ Hg).
  unfold first_result. destruct (present w this); [|reflexivity].
  cbn [done value_of]. unfold bind.
  rewrite (next_yield g this) by (eapply lookup_resumed, Hg).
  cbn [done finished]. unfold ret. now rewrite resumed_resumed.
Qed.

Lemma for_of_eq {A} (fuel : nat) (this : ref) (body : A -> value -> A)
    (acc : A) (w : world) :
  2 <= fuel ->
  for_of fuel this body acc w
  = (Ok (Some (if present w this then body acc (held w this) else acc)),
     allocated w (OGenerator this Completed)).
Proof.
  intros Hfuel. unfold for_of, Optional.iterator, bind at 1, alloc.
  fold (allocated w (OGenerator this SuspendedStart)).
  rewrite (for_of_loop_start fuel _ this) by
    (try exact Hfuel; now apply list_lookup_middle).
  destruct (present_allocated_generator w this SuspendedStart this)
    as [-> ->].
  f_equal. unfold resumed, allocated; simpl. f_equal.
  rewrite insert_app_r_alt by lia.
  now replace (length (objects w) - length (objects w)) with 0 by lia.
Qed.

Lemma for_of_times_eq {A} (n fuel : nat) (this : ref)
    (body : A -> value -> A) :
  2 <= fuel ->
  forall (acc : A) (w : world),
    fst (for_of_times n fuel this body acc w)
    = Ok (Some (if present w this
                then Nat.iter n (fun a => body a (held w this)) acc
                else acc)).
Proof.
  intros Hfuel. induction n as [|n IH]; intros acc w.
  - simpl. now destruct (present w this).
  - cbn [for_of_times]. unfold bind. rewrite for_of_eq by exact Hfuel.
    rewrite IH.
    destruct (present_allocated_generator w this Completed this)
      as [-> ->].
    destruct (present w this); [|reflexivity].
    f_equal. f_equal. symmetry.
    apply (Nat.iter_succ_r n (fun a => body a (held w this))).
Qed.

Lemma first_result_allocated_generator (w : world) (t : ref) (s : gen_state)
    (this : ref) :
  first_result (allocated w (OGenerator t s)) this = first_result w this.
Proof.
  unfold first_result.
  now destruct (present_allocated_generator w t s this) as [-> ->].
Qed.

Lemma first_result_resumed (w : world) (g t : ref) (s s' : gen_state)
    (this : ref) :
  objects w !! g = Some (OGenerator t s) ->
  first_result (resumed w g t s') this = first_result w this.
Proof.
  intros Hg. unfold first_result, present, held, resumed; simpl.
  now rewrite (slot_resumed _ _ _ _ _ _ _ Hg).
Qed.

Lemma two_traversals_eq (this : ref) (w : world) :
  fst (two_traversals this w)
  = Ok (first_result w this, finished, first_result w this).
Proof.
  unfold two_traversals, Optional.iterator, alloc.
  unfold bind at 1. fold (allocated w (OGenerator this SuspendedStart)).
  set (w1 := allocated w (OGenerator this SuspendedStart)).
  unfold bind at 1. fold (allocated w1 (OGenerator this SuspendedStart)).
  set (w2 := allocated w1 (OGenerator this SuspendedStart)).
  set (g1 := length (objects w)). set (g2 := length (objects w1)).
  assert (Hg2 : g2 = S g1).
  { subst g2 g1 w1. simpl. rewrite length_app. simpl. lia. }
  assert (H1 : objects w2 !! g1 = Some (OGenerator this SuspendedStart)).
  { subst w2 w1 g1. simpl. apply lookup_app_l_Some.
    now apply list_lookup_middle. }
  assert (H2 : objects w2 !! g2 = Some (OGenerator this SuspendedStart)).
  { subst w2 g2. simpl. now apply list_lookup_middle. }
  assert (Hf : first_result w2 this = first_result w this).
  { subst w2 w1. now rewrite !first_result_allocated_generator. }
  unfold bind at 1. rewrite (next_start _ _ _ H1), Hf.
  set (st := if present w2 this then SuspendedYield else Completed).
  assert (H3 : objects (resumed w2 g1 this st) !! g1
               = Some (OGenerator this st))
    by (eapply lookup_resumed, H1).
  assert (H4 : forall w' s, objects w' = objects (resumed w2 g1 this s) ->
                            objects w' !! g2
                            = Some (OGenerator this SuspendedStart)).
  { intros w' s ->. simpl. rewrite list_lookup_insert_ne by lia. exact H2. }
  assert (Hf' : forall s, first_result (resumed w2 g1 this s) this
                          = first_result w this).
  { intros s. now rewrite (first_result_resumed _ _ _ _ _ _ H1). }
  unfold bind at 1. destruct st eqn:Hst.
  - destruct (present w2 this); discriminate Hst.
  - rewrite (next_yield _ _ _ H3), resumed_resumed. unfold bind.
    rewrite (next_start g2 this) by (eapply H4; reflexivity).
    now rewrite Hf'.
  - rewrite (next_completed _ _ _ H3). unfold bind.
    rewrite (next_start g2 this) by (eapply H4; reflexivity).
    now rewrite Hf'.
Qed.

(** C8. A loop over a present container runs its body exactly once, on
    the held value, and ends; a loop over an empty container runs it not
    at all.  Every loop is a traversal of its own: [n] loops over a
    present container run the body [n] times, so two loops count 2, and
    any number of loops over an empty container count 0; and a traversal
    run to its end leaves a second traversal of the same container at its
    start.  Two calls of [next] are all a loop needs. *)
Theorem iteration_spec (this : ref) (w : world) :
  (forall (A : Type) (fuel : nat) (body : A -> value -> A) (acc : A),
      2 <= fuel ->
      for_of fuel this body acc w
      = (Ok (Some (if present w this then body acc (held w this) else acc)),
         allocated w (OGenerator this Completed))) /\
  (forall (fuel : nat),
      2 <= fuel ->
      fst (for_of fuel this (fun l x => l ++ [x]) [] w)
      = Ok (Some (if present w this then [held w this] else []))) /\
  (forall (A : Type) (n fuel : nat) (body : A -> value -> A) (acc : A),
      2 <= fuel ->
      fst (for_of_times n fuel this body acc w)
      = Ok (Some (if present w this
                  then Nat.iter n (fun a => body a (held w this)) acc
                  else acc))) /\
  (forall (n fuel : nat),
      2 <= fuel ->
      fst (for_of_times n fuel this (fun total _ => S total) 0 w)
      = Ok (Some (if present w this then n else 0))) /\
  fst (two_traversals this w)
  = Ok (first_result w this, finished, first_result w this).
Proof.
  split; [|split; [|split; [|split]]].
  - intros A fuel body acc Hfuel. now apply for_of_eq.
  - intros fuel Hfuel. rewrite for_of_eq by exact Hfuel. simpl.
    now destruct (present w this).
  - intros A n fuel body acc Hfuel. now apply for_of_times_eq.
  - intros n fuel Hfuel. rewrite for_of_times_eq by exact Hfuel.
    destruct (present w this); [|reflexivity].
    f_equal. f_equal. induction n as [|n IH]; [reflexivity|].
    simpl. now rewrite IH.
  - apply two_traversals_eq.
Qed.

Lemma iteration_spec_witness :
  fst (for_of_times 2 2 0 (fun total _ => S total) 0 Tests.w_hello)
  = Ok (Some 2)
  /\ fst (for_of_times 7 2 0 (fun total _ => S total) 0 Tests.w_empty)
     = Ok (Some 0).
Proof.
  split.
  - exact (proj1 (proj2 (proj2 (proj2 (iteration_spec 0 Tests.w_hello))))
             2 2 (le_n 2)).
  - exact (proj1 (proj2 (proj2 (proj2 (iteration_spec 0 Tests.w_empty))))
             7 2 (le_n 2)).
Defined.

(** ** Immutability *)

Lemma preserves_ret {A} (a : A) : preserves (ret a).
Proof. intros w r w' H. now inversion H. Qed.

Lemma preserves_throw {A} (e : value) : preserves (@throw A e).
Proof. intros w r w' H. now inversion H. Qed.


Lemma preserves_if {A} (b : bool) (m1 m2 : M A) :
  preserves m1 -> preserves m2 -> preserves (if b then m1 else m2).
Proof. now destruct b. Qed.

Lemma preserves_read (this : ref) : preserves (read_value this).
Proof. intros w r w' H. now inversion H. Qed.

Lemma preserves_alloc (o : object) : preserves (alloc o).
Proof.
  intros w r w' H a v Ha. inversion H; subst; simpl.
  now apply lookup_app_l_Some.
Qed.

Lemma preserves_assertOn (c : bool) (m : string) : preserves (assertOn c m).
Proof.
  unfold assertOn. apply preserves_if; [apply preserves_throw|].
  apply preserves_ret.
Qed.

Lemma preserves_invoke (fn : option func) (args : list value) :
  preserves (invoke fn args).
Proof.
  destruct fn as [f|]; simpl; [|apply preserves_throw].
  intros w r w' H a v Ha.
  destruct (run_cb (body f args) (objects w)) as [r0 h] eqn:Hrun.
  inversion H; subst; simpl.
  eapply lookup_prefix; [eapply run_cb_prefix, Hrun|exact Ha].
Qed.

(** [next] writes to the generator object only. *)
Lemma preserves_next (g : ref) : preserves (next g).
Proof.
  intros w r w' H a v Ha.
  assert (Hres : forall this s s',
             objects w !! g = Some (OGenerator this s) ->
             objects (resumed w g this s') !! a = Some (OOptional v)).
  { intros this s s' Hg. simpl. rewrite list_lookup_insert_ne; [exact Ha|].
    intros ->. congruence. }
  destruct (objects w !! g) as [[u|this [| |]]|] eqn:Hg.
  - unfold next in H. rewrite Hg in H. now inversion H; subst.
  - rewrite (next_start _ _ _ Hg) in H. inversion H; subst.
    eapply Hres; reflexivity.
  - rewrite (next_yield _ _ _ Hg) in H. inversion H; subst.
    eapply Hres; reflexivity.
  - rewrite (next_completed _ _ _ Hg) in H. now inversion H; subst.
  - unfold next in H. rewrite Hg in H. now inversion H; subst.
Qed.

Lemma preserves_invoke_as (callee : string) (fn : option func)
    (args : list value) :
  preserves (invoke_as callee fn args).
Proof.
  destruct fn as [f|]; unfold invoke_as;
    [apply preserves_invoke|apply preserves_throw].
Qed.

Create HintDb frame.

#[local] Hint Resolve preserves_ret preserves_throw preserves_read
  preserves_alloc preserves_assertOn preserves_invoke preserves_next
  preserves_invoke_as : frame.



Lemma invoke_inv (fn : option func) (args : list value) (w w' : world)
    (x : value) :
  invoke fn args w = (Ok x, w') ->
  exists f, fn = Some f /\
            run_cb (body f args) (objects w) = (Ok x, objects w') /\
            objects w `prefix_of` objects w'.
Proof.
  destruct fn as [f|]; simpl; [|discriminate].
  destruct (run_cb (body f args) (objects w)) as [r h] eqn:Hrun.
  intros H. inversion H; subst; simpl. exists f.
  split; [reflexivity|]. split; [exact Hrun|].
  eapply run_cb_prefix, Hrun.
Qed.








(** ** Containers that no operation tells apart *)

Lemma same_object_refl (o : object) : same_object o o.
Proof. destruct o; simpl; auto. Qed.

Lemma alike_refl (w : world) : alike w w.
Proof.
  split; [|reflexivity]. apply Forall2_lookup. intros i.
  destruct (objects w !! i); constructor. apply same_object_refl.
Qed.

Lemma alike_slot (h1 h2 : heap) (r : ref) :
  Forall2 same_object h1 h2 ->
  isNullOrUndefined (slot h1 r) = isNullOrUndefined (slot h2 r) /\
  (isNullOrUndefined (slot h1 r) = false -> slot h1 r = slot h2 r).
Proof.
  intros Hh. unfold slot.
  pose proof (proj1 (Forall2_lookup _ _ _) Hh r) as Hr.
  destruct Hr as [[v1|t1 s1] [v2|t2 s2] Hso|]; simpl in *; try tauto.
  destruct Hso as [->|[H1 H2]]; [tauto|]. rewrite H1, H2.
  split; [reflexivity|discriminate].
Qed.

Lemma alike_observe (h1 h2 : heap) (r : ref) :
  Forall2 same_object h1 h2 -> observe h1 r = observe h2 r.
Proof.
  intros Hh. unfold observe. destruct (alike_slot h1 h2 r Hh) as [He Hs].
  rewrite <- He. destruct (isNullOrUndefined (slot h1 r)); [reflexivity|].
  now rewrite Hs.
Qed.

Lemma alike_push (h1 h2 : heap) (o1 o2 : object) :
  Forall2 same_object h1 h2 -> same_object o1 o2 ->
  Forall2 same_object (h1 ++ [o1]) (h2 ++ [o2]).
Proof.
  intros Hh Ho. apply Forall2_app; [exact Hh|]. now repeat constructor.
Qed.

(** A supplied function cannot tell alike heaps apart. *)
Lemma run_cb_alike (c : cb) :
  forall h1 h2 : heap,
    Forall2 same_object h1 h2 ->
    fst (run_cb c h1) = fst (run_cb c h2) /\
    Forall2 same_object (snd (run_cb c h1)) (snd (run_cb c h2)).
Proof.
  induction c as [v|e|v k IH|q k IH]; simpl; intros h1 h2 Hh.
  - now split.
  - now split.
  - rewrite (Forall2_length _ _ _ Hh). apply IH.
    apply alike_push; [exact Hh|apply same_object_refl].
  - rewrite (alike_observe _ _ q Hh). now apply IH.
Qed.

Lemma agree_ret {A} (a : A) (w1 w2 : world) :
  alike w1 w2 -> agree (ret a) w1 w2.
Proof. now split. Qed.

Lemma agree_throw {A} (e : value) (w1 w2 : world) :
  alike w1 w2 -> agree (@throw A e) w1 w2.
Proof. now split. Qed.

Lemma agree_bind {A B} (m : M A) (k : A -> M B) (w1 w2 : world) :
  agree m w1 w2 ->
  (forall a w1' w2',
      m w1 = (Ok a, w1') -> m w2 = (Ok a, w2') -> alike w1' w2' ->
      agree (k a) w1' w2') ->
  agree (bind m k) w1 w2.
Proof.
  unfold agree, bind. intros [Hr Hw] Hk.
  destruct (m w1) as [[a1|e1] w1'], (m w2) as [[a2|e2] w2']; simpl in *;
    inversion Hr; subst.
  - now apply Hk.
  - now split.
Qed.

Lemma agree_alloc (o1 o2 : object) (w1 w2 : world) :
  alike w1 w2 -> same_object o1 o2 ->
  fst (alloc o1 w1) = fst (alloc o2 w2) /\
  alike (snd (alloc o1 w1)) (snd (alloc o2 w2)).
Proof.
  intros [Hh Hc] Ho. unfold alloc; simpl. split.
  - now rewrite (Forall2_length _ _ _ Hh).
  - split; simpl; [now apply alike_push|exact Hc].
Qed.

Lemma agree_new (v : value) (w1 w2 : world) :
  alike w1 w2 -> agree (Optional.new v) w1 w2.
Proof. intros Hw. apply agree_alloc; [exact Hw|apply same_object_refl]. Qed.

Lemma agree_assertOn (c : bool) (m : string) (w1 w2 : world) :
  alike w1 w2 -> agree (assertOn c m) w1 w2.
Proof. intros Hw. unfold assertOn. now destruct c. Qed.

Lemma agree_invoke (fn : option func) (args : list value) (w1 w2 : world) :
  alike w1 w2 -> agree (invoke fn args) w1 w2.
Proof.
  intros [Hh Hc]. destruct fn as [f|]; [|now split].
  unfold agree; simpl.
  destruct (run_cb_alike (body f args) _ _ Hh) as [Hr Hh'].
  destruct (run_cb (body f args) (objects w1)) as [r1 h1],
           (run_cb (body f args) (objects w2)) as [r2 h2]; simpl in *.
  split; [exact Hr|]. split; simpl; [exact Hh'|now rewrite Hc].
Qed.

Lemma agree_invoke_as (callee : string) (fn : option func)
    (args : list value) (w1 w2 : world) :
  alike w1 w2 -> agree (invoke_as callee fn args) w1 w2.
Proof.
  intros Hw. destruct fn as [f|]; unfold invoke_as;
    [now apply agree_invoke|now apply agree_throw].
Qed.

Lemma agree_isEmpty (this : ref) (w1 w2 : world) :
  alike w1 w2 -> agree (Optional.isEmpty this) w1 w2.
Proof.
  intros Hw. split; [|exact Hw]. unfold_methods; simpl.
  now rewrite (proj1 (alike_slot _ _ this (proj1 Hw))).
Qed.

Lemma agree_isPresent (this : ref) (w1 w2 : world) :
  alike w1 w2 -> agree (Optional.isPresent this) w1 w2.
Proof.
  intros Hw. split; [|exact Hw]. unfold_methods; simpl.
  now rewrite (proj1 (alike_slot _ _ this (proj1 Hw))).
Qed.

(** Reading the slot of a present container. *)
Lemma agree_read (this : ref) (w1 w2 : world) :
  alike w1 w2 -> present w1 this = true -> agree (read_value this) w1 w2.
Proof.
  intros Hw Hp. split; [|exact Hw]. unfold read_value; simpl.
  now rewrite (proj2 (alike_slot _ _ this (proj1 Hw)) (present_slot _ _ Hp)).
Qed.

Lemma isEmpty_inv (this : ref) (w w' : world) (e : bool) :
  Optional.isEmpty this w = (Ok e, w') ->
  w' = w /\ present w this = negb e.
Proof. unfold_methods. intros H. inversion H; subst. now split. Qed.

Lemma isPresent_inv (this : ref) (w w' : world) (p : bool) :
  Optional.isPresent this w = (Ok p, w') ->
  w' = w /\ present w this = p.
Proof. unfold_methods. intros H. inversion H; subst. now split. Qed.

Lemma read_inv (this : ref) (w w' : world) (v : value) :
  read_value this w = (Ok v, w') -> w' = w /\ v = held w this.
Proof. unfold read_value. intros H. inversion H; subst. now split. Qed.

(** A container that is present stays so over a call of a function. *)
Lemma invoke_present (fn : option func) (args : list value) (w w' : world)
    (x : value) (this : ref) :
  invoke fn args w = (Ok x, w') -> present w this = true ->
  present w' this = true.
Proof.
  intros Hinv Hp. apply invoke_inv in Hinv as (f & _ & _ & Hpre).
  unfold present in *. pose proof (present_slot _ _ Hp) as Hs.
  now rewrite (slot_prefix _ _ _ Hpre Hs), Hs.
Qed.

Lemma agree_get (this : ref) (w1 w2 : world) :
  alike w1 w2 -> agree (Optional.get this) w1 w2.
Proof.
  intros Hw. unfold agree. rewrite !get_eq. simpl. split; [|exact Hw].
  destruct (alike_slot _ _ this (proj1 Hw)) as [He Hs].
  unfold present, held. rewrite <- He.
  destruct (isNullOrUndefined (slot (objects w1) this)); [reflexivity|].
  simpl. now rewrite Hs.
Qed.

(** Each step of a method that starts with [isPresent()] or [isEmpty()]
    and reads [this.value] only on the present side. *)
Ltac agree_step :=
  match goal with
  | |- agree (ret _) _ _ => apply agree_ret; assumption
  | |- agree (throw _) _ _ => apply agree_throw; assumption
  | |- agree (assertOn _ _) _ _ => apply agree_assertOn; assumption
  | |- agree (invoke _ _) _ _ => apply agree_invoke; assumption
  | |- agree (invoke_as _ _ _) _ _ => apply agree_invoke_as; assumption
  | |- agree (Optional.new _) _ _ => apply agree_new; assumption
  | |- agree (alloc _) _ _ =>
      apply agree_alloc; [assumption|apply same_object_refl]
  | |- agree (Optional.get _) _ _ => apply agree_get; assumption
  | |- agree (Optional.isEmpty _) _ _ => apply agree_isEmpty; assumption
  | |- agree (Optional.isPresent _) _ _ => apply agree_isPresent; assumption
  | |- agree (read_value _) _ _ => apply agree_read; [assumption|auto]
  | |- agree (bind _ _) _ _ =>
      apply agree_bind;
      [|let a := fresh "a" in
        let H1 := fresh "H1" in
        let H2 := fresh "H2" in
        let Hw := fresh "Hw" in
        intros a ? ? H1 H2 Hw;
        first [ apply isEmpty_inv in H1 as [-> H1];
                apply isEmpty_inv in H2 as [-> H2]; destruct a; simpl in H1
              | apply isPresent_inv in H1 as [-> H1];
                apply isPresent_inv in H2 as [-> H2]; destruct a
              | apply read_inv in H1 as [-> H1];
                apply read_inv in H2 as [-> H2]
              | pose proof (fun t => invoke_present _ _ _ _ _ t H1)
              | idtac ]]
  | |- agree (if ?b then _ else _) _ _ => destruct b
  end.

(** [next] cannot tell alike worlds apart. *)
Lemma agree_next (g : ref) (w1 w2 : world) :
  alike w1 w2 -> agree (next g) w1 w2.
Proof.
  intros Hw. pose proof Hw as [Hh Hc].
  assert (Hres : forall this s,
             alike (resumed w1 g this s) (resumed w2 g this s)).
  { intros this s. split; simpl; [|exact Hc].
    apply Forall2_insert; [exact Hh|]. now split. }
  assert (Hfirst : forall this, first_result w1 this = first_result w2 this
                                /\ present w1 this = present w2 this).
  { intros this. destruct (alike_slot _ _ this Hh) as [He Hs].
    unfold first_result, present, held. rewrite <- He.
    destruct (isNullOrUndefined (slot (objects w1) this)); [now split|].
    simpl. now rewrite Hs. }
  pose proof (proj1 (Forall2_lookup _ _ _) Hh g) as Hg.
  destruct (objects w1 !! g) as [o1|] eqn:H1,
           (objects w2 !! g) as [o2|] eqn:H2; inversion Hg; subst.
  - destruct o1 as [v1|t1 s1], o2 as [v2|t2 s2]; simpl in *; try tauto.
    + unfold agree, next. rewrite H1, H2. now split.
    + match goal with H : _ /\ _ |- _ => destruct H as [<- <-] end.
      unfold agree. destruct s1.
      * rewrite (next_start _ _ _ H1), (next_start _ _ _ H2); simpl.
        destruct (Hfirst t1) as [-> ->]. split; [reflexivity|apply Hres].
      * rewrite (next_yield _ _ _ H1), (next_yield _ _ _ H2); simpl.
        split; [reflexivity|apply Hres].
      * rewrite (next_completed _ _ _ H1), (next_completed _ _ _ H2).
        now split.
  - unfold agree, next. rewrite H1, H2. now split.
Qed.

(** No operation tells alike worlds apart. *)
Lemma agree_exec (o : op) (w1 w2 : world) :
  alike w1 w2 -> agree (exec o) w1 w2.
Proof.
  intros Hw.
  destruct o; simpl; unfold fmap_M;
    unfold Optional.filter, Optional.map, Optional.flatMap, Optional.or,
      Optional.orElse, Optional.orElseGet, Optional.orElseThrow,
      Optional.ifPresent, Optional.ifPresentOrElse,
      Optional.of_, Optional.ofNullable, Optional.empty, Optional.iterator;
    try (apply agree_bind; [now apply agree_next|intros; now apply agree_ret]);
    repeat agree_step.
Qed.

Lemma outcomes_alike (os : list op) :
  forall w1 w2 : world, alike w1 w2 -> outcomes os w1 = outcomes os w2.
Proof.
  induction os as [|o os IH]; intros w1 w2 Hw; [reflexivity|].
  simpl. destruct (agree_exec o w1 w2 Hw) as [Hr Hw'].
  destruct (exec o w1) as [r1 w1'], (exec o w2) as [r2 w2']; simpl in *.
  now rewrite Hr, (IH _ _ Hw').
Qed.

(** ** ofNullable *)

(** C10. For a value [v] that is neither [undefined] nor [null],
    [ofNullable(v)] and [of(v)] are the same computation: same container,
    same world, hence the same outcome of every sequence of operations.
    For [undefined] or [null], [ofNullable] and [empty()] return the same
    reference to an empty container, in worlds that no operation and no
    sequence of operations tells apart. *)
Theorem ofNullable_equivalence (v : value) (w : world) :
  (isNullOrUndefined v = false ->
   Optional.ofNullable v w = Optional.of_ v w /\
   present (snd (Optional.ofNullable v w)) (length (objects w)) = true /\
   held (snd (Optional.ofNullable v w)) (length (objects w)) = v /\
   forall os : list op,
     outcomes os (snd (Optional.ofNullable v w))
     = outcomes os (snd (Optional.of_ v w))) /\
  (isNullOrUndefined v = true ->
   fst (Optional.ofNullable v w) = fst (Optional.empty w) /\
   present (snd (Optional.ofNullable v w)) (length (objects w)) = false /\
   present (snd (Optional.empty w)) (length (objects w)) = false /\
   alike (snd (Optional.ofNullable v w)) (snd (Optional.empty w)) /\
   (forall o : op,
       agree (exec o) (snd (Optional.ofNullable v w))
         (snd (Optional.empty w))) /\
   forall os : list op,
     outcomes os (snd (Optional.ofNullable v w))
     = outcomes os (snd (Optional.empty w))) /\
  (forall (w1 w2 : world) (o : op),
      alike w1 w2 -> agree (exec o) w1 w2).
Proof.
  split; [|split].
  - intros Hv.
    assert (Heq : Optional.ofNullable v w = Optional.of_ v w).
    { unfold_methods. now rewrite Hv. }
    split; [exact Heq|]. split; [|split].
    + change (snd (Optional.ofNullable v w))
        with (allocated w (OOptional v)).
      now rewrite present_allocated, Hv.
    + change (snd (Optional.ofNullable v w))
        with (allocated w (OOptional v)).
      apply held_allocated.
    + intros os. now rewrite Heq.
  - intros Hv.
    assert (Hal : alike (snd (Optional.ofNullable v w))
                    (snd (Optional.empty w))).
    { split; [|reflexivity]. simpl.
      apply alike_push; [apply alike_refl|]. right. now split. }
    split; [reflexivity|]. split; [|split; [|split; [|split]]].
    + change (snd (Optional.ofNullable v w))
        with (allocated w (OOptional v)).
      now rewrite present_allocated, Hv.
    + change (snd (Optional.empty w))
        with (allocated w (OOptional VUndefined)).
      now rewrite present_allocated.
    + exact Hal.
    + intros o. now apply agree_exec.
    + intros os. now apply outcomes_alike.
  - intros w1 w2 o. apply agree_exec.
Qed.

Lemma ofNullable_equivalence_witness :
  Optional.ofNullable Tests.hello Tests.w0 = Optional.of_ Tests.hello Tests.w0
  /\ outcomes [Get 0; OrElse 0 (VStr "goodbye"); Filter 0 None; Iterator 0;
               Next 1; Next 1]
       (snd (Optional.ofNullable VNull Tests.w0))
     = outcomes [Get 0; OrElse 0 (VStr "goodbye"); Filter 0 None; Iterator 0;
                 Next 1; Next 1]
         (snd (Optional.empty Tests.w0)).
Proof.
  split.
  - exact (proj1 (proj1 (ofNullable_equivalence Tests.hello Tests.w0)
                    eq_refl)).
  - apply (proj1 (proj2 (ofNullable_equivalence VNull Tests.w0)) eq_refl).
Defined.

(** * Further properties of the class *)

(** ** ifPresentOrElse *)

(** X1. [ifPresentOrElse] calls exactly one of its two functions: on a
    present container [nonEmptyFn], once and with the held value; on an
    empty container [emptyFn], once and without arguments.  It ends as the
    function it calls does.  The other function is neither called nor
    looked at, and a missing function is an error only on the side that is
    taken: the host's error for the call, which names the parameter that
    was called. *)
Theorem ifPresentOrElse_spec (this : ref) (nonEmptyFn emptyFn : option func)
    (w : world) :
  (forall (f : func) (r : outcome value) (h : heap),
      present w this = true -> nonEmptyFn = Some f ->
      run_cb (body f [held w this]) (objects w) = (r, h) ->
      Optional.ifPresentOrElse this nonEmptyFn emptyFn w
      = (match r with Ok _ => Ok tt | Throw e => Throw e end,
         called w f [held w this] h)) /\
  (forall (f : func) (r : outcome value) (h : heap),
      present w this = false -> emptyFn = Some f ->
      run_cb (body f []) (objects w) = (r, h) ->
      Optional.ifPresentOrElse this nonEmptyFn emptyFn w
      = (match r with Ok _ => Ok tt | Throw e => Throw e end,
         called w f [] h)) /\
  (present w this = true -> nonEmptyFn = None ->
   Optional.ifPresentOrElse this nonEmptyFn emptyFn w
   = (Throw (VErr "TypeError" "nonEmptyFn is not a function"), w)) /\
  (present w this = false -> emptyFn = None ->
   Optional.ifPresentOrElse this nonEmptyFn emptyFn w
   = (Throw (VErr "TypeError" "emptyFn is not a function"), w)) /\
  (forall callee : string, kind_of (not_callable callee) = CallError).
Proof.
  split; [|split; [|split; [|split]]].
  - intros f r h Hp -> Hrun. apply present_slot in Hp.
    unfold_methods. rewrite Hp. simpl. unfold invoke_as, invoke.
    fold (held w this). rewrite Hrun. now destruct r.
  - intros f r h He -> Hrun. apply empty_slot in He.
    unfold_methods. rewrite He. simpl. unfold invoke_as, invoke.
    rewrite Hrun. now destruct r.
  - intros Hp ->. apply present_slot in Hp. unfold_methods.
    now rewrite Hp.
  - intros He ->. apply empty_slot in He. unfold_methods.
    now rewrite He.
  - reflexivity.
Qed.

Lemma ifPresentOrElse_spec_witness :
  Optional.ifPresentOrElse 0 (Some (Tests.constant 1 VUndefined)) None
    Tests.w_hello
  = (Ok tt, {| objects := objects Tests.w_hello;
               calls := [(1, [Tests.hello])] |})
  /\ Optional.ifPresentOrElse 0 None (Some (Tests.constant 2 VUndefined))
       Tests.w_empty
     = (Ok tt, {| objects := objects Tests.w_empty; calls := [(2, [])] |})
  /\ Optional.ifPresentOrElse 0 None (Some (Tests.constant 2 VUndefined))
       Tests.w_hello
     = (Throw (VErr "TypeError" "nonEmptyFn is not a function"),
        Tests.w_hello)
  /\ Optional.ifPresentOrElse 0 (Some (Tests.constant 1 VUndefined)) None
       Tests.w_empty
     = (Throw (VErr "TypeError" "emptyFn is not a function"),
        Tests.w_empty).
Proof.
  split; [|split; [|split]].
  - exact (proj1 (ifPresentOrElse_spec 0 _ None Tests.w_hello)
             (Tests.constant 1 VUndefined) (Ok VUndefined)
             (objects Tests.w_hello) eq_refl eq_refl eq_refl).
  - exact (proj1 (proj2 (ifPresentOrElse_spec 0 None _ Tests.w_empty))
             (Tests.constant 2 VUndefined) (Ok VUndefined)
             (objects Tests.w_empty) eq_refl eq_refl eq_refl).
  - exact (proj1 (proj2 (proj2 (ifPresentOrElse_spec 0 None _
                                  Tests.w_hello))) eq_refl eq_refl).
  - exact (proj1 (proj2 (proj2 (proj2 (ifPresentOrElse_spec 0 _ None
                                         Tests.w_empty))))
             eq_refl eq_refl).
Defined.

(** ** get, orElse, orElseGet, orElseThrow *)

(** X2. On a present container the four ways to take the value out agree:
    [get], [orElse], [orElseGet] and [orElseThrow] all return the held
    value, call nothing and leave the world as it is, whatever fallback
    they were given, a missing function included. *)
Theorem accessors_on_present (this : ref) (w : world) :
  present w this = true ->
  forall (other : value) (fn : option func),
    Optional.get this w = (Ok (held w this), w) /\
    Optional.orElse this other w = (Ok (held w this), w) /\
    Optional.orElseGet this fn w = (Ok (held w this), w) /\
    Optional.orElseThrow this fn w = (Ok (held w this), w).
Proof.
  intros Hp other fn. apply present_slot in Hp.
  repeat split; unfold_methods; now rewrite Hp.
Qed.

Lemma accessors_on_present_witness :
  Optional.get 0 Tests.w_hello = (Ok Tests.hello, Tests.w_hello) /\
  Optional.orElseThrow 0 None Tests.w_hello = (Ok Tests.hello, Tests.w_hello).
Proof.
  destruct (accessors_on_present 0 Tests.w_hello eq_refl VNull None)
    as (Hget & _ & _ & Hthrow).
  split; [exact Hget|exact Hthrow].
Defined.

(** X3. On an empty container [orElse] returns its argument as it is, be
    it [null] or [undefined], and [orElseGet] calls its supplier exactly
    once, without arguments, and ends as the supplier does: unlike [or],
    it does not check the result, so a supplier that returns [null] makes
    [orElseGet] return [null].  With no supplier the call is the host's
    error. *)
Theorem fallbacks_on_empty (this : ref) (w : world) :
  present w this = false ->
  (forall other : value, Optional.orElse this other w = (Ok other, w)) /\
  (forall (f : func) (r : outcome value) (h : heap),
      run_cb (body f []) (objects w) = (r, h) ->
      Optional.orElseGet this (Some f) w = (r, called w f [] h)) /\
  Optional.orElseGet this None w = (Throw not_a_function, w).
Proof.
  intros He. apply empty_slot in He. split; [|split].
  - intros other. unfold_methods. now rewrite He.
  - intros f r h Hrun. unfold_methods. rewrite He. simpl. unfold invoke.
    now rewrite Hrun.
  - unfold_methods. now rewrite He.
Qed.

Lemma fallbacks_on_empty_witness :
  Optional.orElseGet 0 (Some (Tests.constant 1 VNull)) Tests.w_empty
  = (Ok VNull, {| objects := objects Tests.w_empty; calls := [(1, [])] |})
  /\ Optional.orElse 0 VNull Tests.w_empty = (Ok VNull, Tests.w_empty).
Proof.
  destruct (fallbacks_on_empty 0 Tests.w_empty eq_refl) as (Helse & Hget & _).
  split.
  - exact (Hget (Tests.constant 1 VNull) (Ok VNull) (objects Tests.w_empty)
             eq_refl).
  - exact (Helse VNull).
Defined.

(** X4. [orElseThrow] on an empty container never returns: it throws what
    its supplier returned, whatever value that is, after calling the
    supplier exactly once and without arguments; or what the supplier
    threw; or, with no supplier, the host's error for the call. *)
Theorem orElseThrow_on_empty (this : ref) (fn : option func) (w : world) :
  present w this = false ->
  (exists e w', Optional.orElseThrow this fn w = (Throw e, w')) /\
  (forall (f : func) (r : outcome value) (h : heap),
      fn = Some f -> run_cb (body f []) (objects w) = (r, h) ->
      Optional.orElseThrow this fn w
      = (Throw (match r with Ok e => e | Throw e => e end),
         called w f [] h)) /\
  (fn = None -> Optional.orElseThrow this fn w = (Throw not_a_function, w)).
Proof.
  intros He. apply empty_slot in He.
  assert (Hsome : forall f r h,
             run_cb (body f []) (objects w) = (r, h) ->
             Optional.orElseThrow this (Some f) w
             = (Throw (match r with Ok e => e | Throw e => e end),
                called w f [] h)).
  { intros f r h Hrun. unfold_methods. rewrite He. simpl. unfold invoke.
    rewrite Hrun. now destruct r. }
  assert (Hnone : Optional.orElseThrow this None w
                  = (Throw not_a_function, w)).
  { unfold_methods. now rewrite He. }
  split; [|split].
  - destruct fn as [f|].
    + destruct (run_cb (body f []) (objects w)) as [r h] eqn:Hrun.
      eexists _, _. exact (Hsome f r h Hrun).
    + eexists _, _. exact Hnone.
  - intros f r h ->. apply Hsome.
  - intros ->. exact Hnone.
Qed.

Lemma orElseThrow_on_empty_witness :
  Optional.orElseThrow 0 (Some (Tests.constant 1 VUndefined)) Tests.w_empty
  = (Throw VUndefined,
     {| objects := objects Tests.w_empty; calls := [(1, [])] |}).
Proof.
  exact (proj1 (proj2 (orElseThrow_on_empty 0 _ Tests.w_empty eq_refl))
           (Tests.constant 1 VUndefined) (Ok VUndefined)
           (objects Tests.w_empty) eq_refl eq_refl).
Defined.

(** X5. [Optional.ofNullable(v).orElse(other)] is [v] unless [v] is
    [undefined] or [null], and [other] then; it never fails. *)
Theorem ofNullable_orElse_coalesces (v other : value) (w : world) :
  ofNullable_orElse v other w
  = (Ok (if isNullOrUndefined v then other else v),
     allocated w (OOptional v)).
Proof.
  unfold ofNullable_orElse, bind, Optional.ofNullable, Optional.new, alloc.
  fold (allocated w (OOptional v)).
  unfold Optional.orElse, Optional.isPresent, Optional.isEmpty, read_value,
    bind, ret.
  change (objects (allocated w (OOptional v)))
    with (objects w ++ [OOptional v]).
  rewrite slot_alloc.
  destruct (isNullOrUndefined v); simpl; [reflexivity|].
  now rewrite slot_alloc.
Qed.

(** ** map and flatMap, composed *)

Lemma map_pure (this : ref) (i : nat) (F : value -> value) (w : world) :
  Optional.map this (Some (pure_fn i F)) w
  = (Ok (length (objects w)),
     if present w this
     then allocated (called w (pure_fn i F) [held w this] (objects w))
            (OOptional (F (held w this)))
     else allocated w (OOptional VUndefined)).
Proof.
  unfold_methods. unfold present, held.
  now destruct (isNullOrUndefined (slot (objects w) this)).
Qed.

Lemma observe_allocated (w : world) (v : value) :
  observe (objects (allocated w (OOptional v))) (length (objects w))
  = visible v.
Proof. unfold observe, visible; simpl. now rewrite slot_alloc. Qed.

(** X6. For functions [f] and [g] that only compute, [o.map(f).map(g)] on
    a present container holding [v] shows [g(f(v))] when [f(v)] is
    neither [undefined] nor [null], as [o.map(x => g(f(x)))] does.  When
    [f(v)] is [undefined] or [null] the two part: the chain is empty and
    [g] is not called at all, while the single [map] calls [g] on that
    absent value and shows what it returns.  On an empty container both
    are empty and nothing is called. *)
Theorem map_map_spec (this : ref) (i j : nat) (F G : value -> value)
    (w : world) :
  let v := held w this in
  let chain := map_map this (Some (pure_fn i F)) (Some (pure_fn j G)) w in
  let single := Optional.map this (Some (pure_fn i (fun x => G (F x)))) w in
  (exists r, fst chain = Ok r /\
     observe (objects (snd chain)) r
     = (if present w this
        then if isNullOrUndefined (F v) then None else visible (G (F v))
        else None)) /\
  (exists r, fst single = Ok r /\
     observe (objects (snd single)) r
     = (if present w this then visible (G (F v)) else None)) /\
  calls (snd chain)
  = calls w ++
    (if present w this
     then (i, [v]) :: (if isNullOrUndefined (F v) then [] else [(j, [F v])])
     else []) /\
  calls (snd single) = calls w ++ (if present w this then [(i, [v])] else []).
Proof.
  intros v chain single. subst chain single.
  unfold map_map, bind. rewrite (map_pure this i F).
  rewrite (map_pure this i (fun x => G (F x))). cbv beta iota.
  rewrite map_pure. fold v.
  destruct (present w this) eqn:Hp; cbn [fst snd].
  - set (w1 := allocated (called w (pure_fn i F) [v] (objects w))
                 (OOptional (F v))).
    assert (Hp1 : present w1 (length (objects w))
                  = negb (isNullOrUndefined (F v)))
      by apply (present_allocated (called w (pure_fn i F) [v] (objects w))).
    assert (Hh1 : held w1 (length (objects w)) = F v)
      by apply (held_allocated (called w (pure_fn i F) [v] (objects w))).
    rewrite Hp1, Hh1.
    split; [|split; [|split]].
    + eexists; split; [reflexivity|].
      destruct (isNullOrUndefined (F v)); cbn [negb].
      * apply (observe_allocated w1).
      * apply (observe_allocated
                 (called w1 (pure_fn j G) [F v] (objects w1))).
    + eexists; split; [reflexivity|].
      apply (observe_allocated
               (called w (pure_fn i (fun x => G (F x))) [v] (objects w))).
    + destruct (isNullOrUndefined (F v)); cbn [negb]; simpl;
        [reflexivity|]. now rewrite <- app_assoc.
    + reflexivity.
  - set (w1 := allocated w (OOptional VUndefined)).
    assert (Hp1 : present w1 (length (objects w)) = false)
      by apply (present_allocated w VUndefined).
    rewrite Hp1.
    split; [|split; [|split]].
    + eexists; split; [reflexivity|]. apply (observe_allocated w1).
    + eexists; split; [reflexivity|]. apply (observe_allocated w).
    + simpl. now rewrite app_nil_r.
    + simpl. now rewrite app_nil_r.
Qed.

(** X7. [o.flatMap(v => new Optional(v))] and [o.map(v => v)] are the same
    computation: both return a new container, at the same address and in
    the same world, that shows what the receiver shows. *)
Theorem flatMap_wrap_is_map_identity (this : ref) (i : nat) (w : world) :
  Optional.flatMap this (Some (wrap_fn i)) w
  = fmap_M VObj (Optional.map this (Some (pure_fn i (fun x => x)))) w /\
  exists r w',
    Optional.flatMap this (Some (wrap_fn i)) w = (Ok (VObj r), w') /\
    objects w !! r = None /\
    observe (objects w') r = observe (objects w) this.
Proof.
  assert (Heq : Optional.flatMap this (Some (wrap_fn i)) w
                = fmap_M VObj
                    (Optional.map this (Some (pure_fn i (fun x => x)))) w).
  { unfold fmap_M. unfold_methods.
    now destruct (isNullOrUndefined (slot (objects w) this)). }
  split; [exact Heq|]. rewrite Heq. unfold fmap_M, bind.
  rewrite map_pure. cbv beta iota. unfold ret.
  eexists _, _. split; [reflexivity|].
  split; [apply lookup_ge_None_2; lia|].
  destruct (present w this) eqn:Hp.
  - rewrite (observe_allocated
               (called w (pure_fn i (fun x => x)) [held w this] (objects w))).
    unfold visible, observe, held. now rewrite (present_slot _ _ Hp).
  - rewrite (observe_allocated w VUndefined).
    unfold visible, observe. now rewrite (empty_slot _ _ Hp).
Qed.


Example map_map_parts :
  let F := fun _ : value => VNull in
  let G := fun _ : value => VStr "x" in
  observe
    (objects (snd (map_map 0 (Some (pure_fn 1 F)) (Some (pure_fn 2 G))
                     Tests.w_hello))) 2 = None /\
  observe
    (objects (snd (Optional.map 0 (Some (pure_fn 1 (fun x => G (F x))))
                     Tests.w_hello))) 1 = Some (VStr "x").
Proof. split; reflexivity. Qed.

Ltac unfold_methods_in H :=
  unfold Optional.filter, Optional.map, Optional.flatMap, Optional.or,
    Optional.orElse, Optional.orElseGet, Optional.orElseThrow,
    Optional.ifPresent, Optional.ifPresentOrElse, Optional.get,
    Optional.isPresent, Optional.isEmpty, Optional.of_,
    Optional.ofNullable, Optional.empty, Optional.new, Optional.iterator,
    assertOn, alloc, read_value, bind, ret, throw in H.

(** ** Construction *)

(** X8. Every construction gives a container of its own: the reference a
    constructor returns was not in use before the call, and a second
    construction, of whatever kind, returns another reference and leaves
    the first container as it is.  In particular [empty()] called twice
    gives two containers, not one shared instance. *)
Theorem constructors_fresh (c1 c2 : op) (w w1 w2 : world) (a b : ref) :
  is_constructor c1 = true -> is_constructor c2 = true ->
  exec c1 w = (Ok (AVal (VObj a)), w1) ->
  exec c2 w1 = (Ok (AVal (VObj b)), w2) ->
  objects w !! a = None /\
  a <> b /\
  (exists v, objects w1 !! a = Some (OOptional v) /\
             objects w2 !! a = Some (OOptional v)) /\
  (exists v, objects w2 !! b = Some (OOptional v)).
Proof.
  assert (Hcons : forall c w0 r w0',
             is_constructor c = true ->
             exec c w0 = (Ok (AVal (VObj r)), w0') ->
             r = length (objects w0) /\
             exists v, w0' = allocated w0 (OOptional v)).
  { intros c w0 r w0' Hc Hexec.
    destruct c; try discriminate Hc; simpl in Hexec;
      unfold fmap_M in Hexec; unfold_methods_in Hexec;
      try destruct (isNullOrUndefined v); simpl in Hexec;
      inversion Hexec; subst; (split; [reflexivity|]); eexists;
      reflexivity. }
  intros Hc1 Hc2 H1 H2.
  destruct (Hcons _ _ _ _ Hc1 H1) as [-> [v1 ->]].
  destruct (Hcons _ _ _ _ Hc2 H2) as [-> [v2 ->]].
  simpl. rewrite length_app; simpl.
  split; [apply lookup_ge_None_2; lia|]. split; [lia|]. split.
  - exists v1. split.
    + now apply list_lookup_middle.
    + apply lookup_app_l_Some. now apply list_lookup_middle.
  - exists v2. apply list_lookup_middle. rewrite length_app; simpl. lia.
Qed.

Lemma constructors_fresh_witness :
  objects Tests.w0 !! 0 = None /\
  0 <> 1 /\
  (exists v, objects (allocated Tests.w0 (OOptional VUndefined)) !! 0
             = Some (OOptional v) /\
             objects (allocated (allocated Tests.w0 (OOptional VUndefined))
                        (OOptional VUndefined)) !! 0
             = Some (OOptional v)) /\
  (exists v, objects (allocated (allocated Tests.w0 (OOptional VUndefined))
                        (OOptional VUndefined)) !! 1
             = Some (OOptional v)).
Proof.
  exact (constructors_fresh Empty Empty Tests.w0 _ _ 0 1
           eq_refl eq_refl eq_refl eq_refl).
Defined.

(** ** Calls of the supplied functions *)

(** X9. An operation calls at most one of the functions it was given, and
    at most once.  The call is either without arguments or with the value
    held by a present container as its only argument: no supplied
    function is ever handed [undefined] or [null] by the class. *)
Theorem one_call_at_most (o : op) (w w' : world) (r : outcome answer) :
  exec o w = (r, w') ->
  calls w' = calls w \/
  exists (f : func) (args : list value),
    In f (funcs_of o) /\
    calls w' = calls w ++ [(fid f, args)] /\
    (args = [] \/
     exists this, args = [held w this] /\ present w this = true).
Proof.
  intros Hexec.
  assert (Hnext : forall g, o = Next g -> calls w' = calls w).
  { intros g ->. simpl in Hexec. unfold fmap_M, bind in Hexec.
    destruct (objects w !! g) as [[u|this [| |]]|] eqn:Hg.
    - unfold next in Hexec. rewrite Hg in Hexec. now inversion Hexec.
    - rewrite (next_start _ _ _ Hg) in Hexec. now inversion Hexec.
    - rewrite (next_yield _ _ _ Hg) in Hexec. now inversion Hexec.
    - rewrite (next_completed _ _ _ Hg) in Hexec. now inversion Hexec.
    - unfold next in Hexec. rewrite Hg in Hexec. now inversion Hexec. }
  destruct o; try (left; eapply Hnext; reflexivity); clear Hnext;
    simpl in Hexec; unfold fmap_M in Hexec; unfold_methods_in Hexec;
    unfold present, held;
    repeat match type of Hexec with
      | context [isNullOrUndefined (slot (objects w) ?t)] =>
          destruct (isNullOrUndefined (slot (objects w) t)) eqn:?;
          simpl in Hexec
      | context [invoke ?fn ?args w] =>
          destruct fn as [?f|]; simpl in Hexec
      | context [invoke_as ?callee ?fn ?args w] =>
          destruct fn as [?f|]; simpl in Hexec
      | context [run_cb ?c ?hp] =>
          destruct (run_cb c hp) as [[?x|?x] ?h0]; simpl in Hexec
      | context [if ?b then _ else _] => destruct b; simpl in Hexec
      end;
    inversion Hexec; subst; simpl;
    first
      [ left; reflexivity
      | right; eexists _, _;
        split; [|split; [reflexivity|]];
        [ first [ now left | apply in_or_app; right; now left
                | apply in_or_app; left; now left ]
        | first [ left; reflexivity
                | right; eexists; split; [reflexivity|];
                  match goal with
                  | H : isNullOrUndefined _ = false |- _ => now rewrite H
                  end ] ] ].
Qed.

Lemma one_call_at_most_witness :
  calls (snd (exec (IfPresentOrElse 0 (Some (Tests.constant 1 VNull))
                      (Some (Tests.constant 2 VNull))) Tests.w_hello))
  = [(1, [Tests.hello])].
Proof.
  destruct (one_call_at_most
              (IfPresentOrElse 0 (Some (Tests.constant 1 VNull))
                 (Some (Tests.constant 2 VNull)))
              Tests.w_hello _ _ eq_refl) as [H|_]; [discriminate H|].
  reflexivity.
Defined.

(** ** Where a failure comes from *)

Lemma exec_failure (o : op) (w w' : world) (e : value) :
  exec o w = (Throw e, w') ->
  In e (own_errors o) \/
  exists f : func, In f (funcs_of o) /\ yields f e.
Proof.
  intros Hexec.
  assert (Hnext : forall g, o = Next g -> e = not_a_generator).
  { intros g ->. simpl in Hexec.
    exact (throws_only_bind (fun x => x = not_a_generator) (next g)
             (fun a => ret (AIter a))
             (throws_only_next _ g eq_refl)
             (fun a => throws_only_ret _ _) w e w' Hexec). }
  destruct o; try (left; left; symmetry; eapply Hnext; reflexivity);
    clear Hnext;
    simpl in Hexec; unfold fmap_M in Hexec; unfold_methods_in Hexec;
    repeat match type of Hexec with
      | context [isNullOrUndefined (slot (objects w) ?t)] =>
          destruct (isNullOrUndefined (slot (objects w) t)) eqn:?;
          simpl in Hexec
      | context [invoke ?fn ?args w] =>
          destruct fn as [?f|]; simpl in Hexec
      | context [invoke_as ?callee ?fn ?args w] =>
          destruct fn as [?f|]; simpl in Hexec
      | context [run_cb ?c ?hp] =>
          let Hrun := fresh "Hrun" in
          destruct (run_cb c hp) as [[?x|?x] ?h0] eqn:Hrun; simpl in Hexec
      | context [if ?b then _ else _] => destruct b; simpl in Hexec
      end;
    inversion Hexec; subst; simpl;
    first
      [ left; now left
      | left; right; now left
      | left; apply in_or_app; right; now left
      | right; eexists; split;
        [ first [ now left | apply in_or_app; right; now left
                | apply in_or_app; left; now left ]
        | eexists _, _, _;
          first [ left; eassumption | right; eassumption ] ] ].
Qed.

(** X10. Whatever an operation ends with as an error is the error of its
    own check ([of], [get], [flatMap], [or]), or the host's error for a
    function it was not given, or something a function it was given
    returned or threw.  So [ofNullable], [empty], the constructor,
    [isEmpty], [isPresent], [orElse] and the creation of an iterator never
    fail, and [filter], [map], [ifPresent], [ifPresentOrElse] and
    [orElseGet] fail only through their functions. *)
Theorem failures_accounted_for (o : op) (w : world) :
  (forall (e : value) (w' : world),
      exec o w = (Throw e, w') ->
      In e (own_errors o) \/
      exists f : func, In f (funcs_of o) /\ yields f e) /\
  (own_errors o = [] -> funcs_of o = [] ->
   exists (a : answer) (w' : world), exec o w = (Ok a, w')).
Proof.
  split; [intros e w'; apply exec_failure|].
  intros Hown Hfn. destruct (exec o w) as [[a|e] w'] eqn:Hexec.
  - now exists a, w'.
  - apply exec_failure in Hexec as [Hin|(f & Hin & _)].
    + rewrite Hown in Hin. destruct Hin.
    + rewrite Hfn in Hin. destruct Hin.
Qed.

Lemma failures_accounted_for_witness :
  In flatMap_error (own_errors (FlatMap 0 (Some (Tests.constant 1 VNull))))
  \/ exists f : func,
       In f (funcs_of (FlatMap 0 (Some (Tests.constant 1 VNull)))) /\
       yields f flatMap_error.
Proof.
  exact (proj1 (failures_accounted_for
                  (FlatMap 0 (Some (Tests.constant 1 VNull))) Tests.w_hello)
           flatMap_error _ eq_refl).
Defined.

(** ** A traversal, call by call *)

Lemma next_times_completed (n : nat) (g this : ref) (w : world) :
  objects w !! g = Some (OGenerator this Completed) ->
  next_times n g w = (Ok (repeat finished n), w).
Proof.
  intros Hg. induction n as [|n IH]; [reflexivity|].
  cbn [next_times]. unfold bind. rewrite (next_completed _ _ _ Hg), IH.
  reflexivity.
Qed.

Lemma next_times_yield (n : nat) (g this : ref) (w : world) :
  objects w !! g = Some (OGenerator this SuspendedYield) ->
  next_times (S n) g w
  = (Ok (repeat finished (S n)), resumed w g this Completed).
Proof.
  intros Hg. cbn [next_times]. unfold bind at 1.
  rewrite (next_yield _ _ _ Hg). unfold bind.
  rewrite (next_times_completed n g this) by (eapply lookup_resumed, Hg).
  reflexivity.
Qed.

(** X11. A traversal reports at most one value, and [done] is final: of
    any number of calls of [next] on a generator that has not started,
    the first reports the held value of a present container, or [done]
    for an empty one, and every later call reports [done] with
    [undefined].  After the first call that reports [done] the generator
    is completed and stays so. *)
Theorem next_times_spec (n : nat) (g this : ref) (w : world) :
  objects w !! g = Some (OGenerator this SuspendedStart) ->
  next_times (S n) g w
  = (Ok (first_result w this :: repeat finished n),
     resumed w g this
       (match n with
        | O => if present w this then SuspendedYield else Completed
        | S _ => Completed
        end)).
Proof.
  intros Hg. cbn [next_times]. unfold bind at 1.
  rewrite (next_start _ _ _ Hg). unfold bind.
  destruct (present w this) eqn:Hp.
  - destruct n as [|n]; [reflexivity|].
    rewrite (next_times_yield n g this) by (eapply lookup_resumed, Hg).
    now rewrite resumed_resumed.
  - rewrite (next_times_completed n g this)
      by (eapply lookup_resumed, Hg).
    now destruct n.
Qed.

Lemma next_times_spec_witness :
  fst (next_times 4 1 (snd (Optional.iterator 0 Tests.w_hello)))
  = Ok [{| value_of := Tests.hello; done := false |};
        finished; finished; finished].
Proof.
  exact (f_equal fst
           (next_times_spec 3 1 0 (snd (Optional.iterator 0 Tests.w_hello))
              eq_refl)).
Defined.

(** ** What an operation leaves alone *)

Lemma extends_ret {A} (a : A) : extends (ret a).
Proof. intros w r w' H. now inversion H. Qed.

Lemma extends_throw {A} (e : value) : extends (@throw A e).
Proof. intros w r w' H. now inversion H. Qed.

Lemma extends_bind {A B} (m : M A) (k : A -> M B) :
  extends m -> (forall a, extends (k a)) -> extends (bind m k).
Proof.
  intros Hm Hk w r w' Hrun. unfold bind in Hrun.
  destruct (m w) as [[x|e] w0] eqn:Hmw.
  - etransitivity; [eapply Hm, Hmw|eapply Hk, Hrun].
  - inversion Hrun; subst. eapply Hm, Hmw.
Qed.

Lemma extends_if {A} (b : bool) (m1 m2 : M A) :
  extends m1 -> extends m2 -> extends (if b then m1 else m2).
Proof. now destruct b. Qed.

Lemma extends_read (this : ref) : extends (read_value this).
Proof. intros w r w' H. now inversion H. Qed.

Lemma extends_alloc (o : object) : extends (alloc o).
Proof.
  intros w r w' H. inversion H; subst; simpl. now apply prefix_app_r.
Qed.

Lemma extends_assertOn (c : bool) (m : string) : extends (assertOn c m).
Proof.
  unfold assertOn. apply extends_if; [apply extends_throw|].
  apply extends_ret.
Qed.

Lemma extends_invoke (fn : option func) (args : list value) :
  extends (invoke fn args).
Proof.
  destruct fn as [f|]; simpl; [|apply extends_throw].
  intros w r w' H.
  destruct (run_cb (body f args) (objects w)) as [r0 h] eqn:Hrun.
  inversion H; subst; simpl. eapply run_cb_prefix, Hrun.
Qed.

Lemma extends_invoke_as (callee : string) (fn : option func)
    (args : list value) :
  extends (invoke_as callee fn args).
Proof.
  destruct fn as [f|]; unfold invoke_as;
    [apply extends_invoke|apply extends_throw].
Qed.

Create HintDb grows.

#[local] Hint Resolve extends_ret extends_throw extends_read extends_alloc
  extends_assertOn extends_invoke extends_invoke_as : grows.

Ltac extends_step :=
  first [ apply extends_bind; [|intros ?]
        | apply extends_if
        | solve [auto with grows] ].

Lemma exec_extends (o : op) : written o = None -> extends (exec o).
Proof.
  destruct o; simpl; try discriminate; intros _; unfold fmap_M;
    unfold Optional.filter, Optional.map, Optional.flatMap, Optional.or,
      Optional.orElse, Optional.orElseGet, Optional.orElseThrow,
      Optional.ifPresent, Optional.ifPresentOrElse, Optional.get,
      Optional.isPresent, Optional.isEmpty, Optional.of_,
      Optional.ofNullable, Optional.empty, Optional.new, Optional.iterator;
    repeat extends_step.
Qed.

(** [next] keeps the heap but for the state of its generator. *)
Lemma next_writes_generator (g : ref) (w w' : world)
    (r : outcome iter_result) :
  next g w = (r, w') ->
  w' = w \/
  exists this s s', objects w !! g = Some (OGenerator this s) /\
                    w' = resumed w g this s'.
Proof.
  intros H. destruct (objects w !! g) as [[u|this [| |]]|] eqn:Hg.
  - unfold next in H. rewrite Hg in H. left. now inversion H.
  - rewrite (next_start _ _ _ Hg) in H. right. inversion H; subst.
    now eexists _, _, _.
  - rewrite (next_yield _ _ _ Hg) in H. right. inversion H; subst.
    now eexists _, _, _.
  - rewrite (next_completed _ _ _ Hg) in H. left. now inversion H.
  - unfold next in H. rewrite Hg in H. left. now inversion H.
Qed.

(** X12. No operation removes an object or touches one that is not its
    own to write: every operation but [next] only appends to the heap, so
    containers and traversals in progress alike are as they were, and
    [next] changes nothing but the state of the generator it is called
    on, which stays a generator of the same container. *)
Theorem operations_leave_the_rest (o : op) (w w' : world)
    (r : outcome answer) :
  exec o w = (r, w') ->
  (written o = None -> objects w `prefix_of` objects w') /\
  (forall (a : ref) (x : object),
      objects w !! a = Some x -> written o <> Some a ->
      objects w' !! a = Some x) /\
  (forall (g this : ref) (s : gen_state),
      written o = Some g -> objects w !! g = Some (OGenerator this s) ->
      exists s', objects w' !! g = Some (OGenerator this s')) /\
  length (objects w) <= length (objects w').
Proof.
  intros Hexec. destruct (written o) as [g|] eqn:Hw.
  - destruct o; try discriminate Hw. injection Hw as ->.
    simpl in Hexec. unfold fmap_M, bind in Hexec.
    assert (Hnext : exists r0, next g w = (r0, w')).
    { destruct (next g w) as [[x|e] w0]; inversion Hexec; subst; eauto. }
    destruct Hnext as [r0 Hnext].
    apply next_writes_generator in Hnext
      as [->|(this & s & s' & Hg & ->)].
    + split; [discriminate|]. split; [auto|]. split; [|lia].
      intros g0 t0 s0 _ Hg0. eauto.
    + split; [discriminate|]. split; [|split].
      * intros a x Ha Hne. simpl.
        rewrite list_lookup_insert_ne; [exact Ha|].
        intros ->. now apply Hne.
      * intros g0 t0 s0 Heq Hg0. injection Heq as <-.
        rewrite Hg in Hg0. injection Hg0 as <- <-. exists s'. simpl.
        apply list_lookup_insert_eq. eapply lookup_lt_Some, Hg.
      * simpl. rewrite length_insert. lia.
  - pose proof (exec_extends o Hw w r w' Hexec) as Hp.
    split; [intros _; exact Hp|]. split; [|split].
    + intros a x Ha _. eapply lookup_prefix; [exact Hp|exact Ha].
    + discriminate.
    + now apply prefix_length.
Qed.

Lemma operations_leave_the_rest_witness :
  objects (snd (exec (Next 1) (snd (two_traversals 0 Tests.w_hello)))) !! 2
  = Some (OGenerator 0 SuspendedYield).
Proof.
  exact (proj1 (proj2 (operations_leave_the_rest (Next 1)
                         (snd (two_traversals 0 Tests.w_hello)) _ _
                         eq_refl))
           2 (OGenerator 0 SuspendedYield) eq_refl ltac:(discriminate)).
Defined.

(** ** Chains *)

Lemma filter_pure (this : ref) (i : nat) (P : value -> value) (w : world) :
  Optional.filter this (Some (pure_fn i P)) w
  = if present w this
    then (Ok (length (objects w)),
          allocated (called w (pure_fn i P) [held w this] (objects w))
            (OOptional (if truthy (P (held w this)) then held w this
                        else VUndefined)))
    else (Ok this, w).
Proof.
  unfold_methods. unfold present, held.
  destruct (isNullOrUndefined (slot (objects w) this)); simpl;
    [reflexivity|].
  now destruct (truthy (P (slot (objects w) this))).
Qed.

Lemma orElse_eq (this : ref) (other : value) (w : world) :
  Optional.orElse this other w
  = (Ok (if present w this then held w this else other), w).
Proof.
  unfold_methods. unfold present, held.
  now destruct (isNullOrUndefined (slot (objects w) this)).
Qed.

(** X13. For a mapper that only computes, [o.map(f).orElse(other)] is
    [f(v)] when the container holds [v] and [f(v)] is neither [undefined]
    nor [null], and [other] in every other case; it never fails. *)
Theorem map_orElse_spec (this : ref) (i : nat) (F : value -> value)
    (other : value) (w : world) :
  fst (map_orElse this (Some (pure_fn i F)) other w)
  = Ok (if present w this
        then if isNullOrUndefined (F (held w this)) then other
             else F (held w this)
        else other).
Proof.
  unfold map_orElse, bind. rewrite map_pure. cbv beta iota.
  rewrite orElse_eq. cbn [fst]. destruct (present w this).
  - rewrite (present_allocated
               (called w (pure_fn i F) [held w this] (objects w))),
      (held_allocated
         (called w (pure_fn i F) [held w this] (objects w))).
    now destruct (isNullOrUndefined (F (held w this))).
  - now rewrite (present_allocated w VUndefined).
Qed.

(** X14. Filters with predicates that only compute compose as a
    conjunction: [o.filter(p).filter(q)] shows the held value [v] when
    the container is present and both [p(v)] and [q(v)] are true, and is
    empty otherwise.  [q] is called only when [p] accepted [v], and no
    predicate is called on an empty container. *)
Theorem filter_filter_spec (this : ref) (i j : nat) (P Q : value -> value)
    (w : world) :
  let v := held w this in
  let chain :=
    filter_filter this (Some (pure_fn i P)) (Some (pure_fn j Q)) w in
  (exists r, fst chain = Ok r /\
     observe (objects (snd chain)) r
     = (if present w this && truthy (P v) && truthy (Q v) then Some v
        else None)) /\
  calls (snd chain)
  = calls w ++
    (if present w this
     then (i, [v]) :: (if truthy (P v) then [(j, [v])] else [])
     else []).
Proof.
  intros v chain. subst chain. unfold filter_filter, bind.
  rewrite filter_pure. fold v. destruct (present w this) eqn:Hp.
  - cbv beta iota. rewrite filter_pure.
    set (w0 := called w (pure_fn i P) [v] (objects w)).
    set (w1 := allocated w0 (OOptional (if truthy (P v) then v
                                        else VUndefined))).
    assert (Hv : isNullOrUndefined v = false) by apply (present_slot _ _ Hp).
    assert (Hp1 : present w1 (length (objects w)) = truthy (P v)).
    { subst w1. rewrite (present_allocated w0).
      destruct (truthy (P v)); [now rewrite Hv|reflexivity]. }
    assert (Hh1 : held w1 (length (objects w))
                  = if truthy (P v) then v else VUndefined)
      by apply (held_allocated w0).
    rewrite Hp1, Hh1. destruct (truthy (P v)) eqn:HP; cbn [fst snd andb].
    + split.
      * eexists; split; [reflexivity|].
        rewrite (observe_allocated
                   (called w1 (pure_fn j Q) [v] (objects w1))).
        unfold visible. destruct (truthy (Q v)); [now rewrite Hv|].
        reflexivity.
      * simpl. now rewrite <- app_assoc.
    + split; [|reflexivity].
      eexists; split; [reflexivity|].
      subst w1. now rewrite (observe_allocated w0).
  - cbv beta iota. rewrite filter_pure, Hp. cbn [fst snd andb]. split.
    + eexists; split; [reflexivity|].
      unfold observe. now rewrite (empty_slot _ _ Hp).
    + now rewrite app_nil_r.
Qed.

